(** * The dial-value pipeline of wtf (package sqlite, dial.go) and the
      error-code table of package http, as a shallow embedding.

    The Go code talks to SQLite through [database/sql].  The embedding keeps
    the three tables the statements name ([dials], [dial_memberships],
    [dial_values]) as lists of rows, gives each SQL statement of the source
    its relational meaning on those lists, and threads the transaction
    through every call the way the Go code threads [tx].  A statement can
    also fail in the driver (I/O, cancellation, a bad conversion in [Scan]);
    which ones do is an input of the model, one entry per call site. *)

From Stdlib Require Import ZArith QArith Qround Qabs Qpower Qfield Lqa Lia.
From stdpp Require Import base option list sorting gmap strings.

Local Open Scope Z_scope.

(** ** time.Time and time.Duration *)

Module time.

(** A [time.Time] is an instant; only its distance to Go's zero time
    matters here, counted in nanoseconds. *)
Definition Time := Z.
Definition Duration := Z.

Definition Nanosecond : Duration := 1.
Definition Second : Duration := 1000000000 * Nanosecond.
Definition Minute : Duration := 60 * Second.

(** [t.Truncate(d)]: round [t] down to a multiple of [d] since the zero
    time; for [d <= 0] the instant is returned as it is. *)
Definition Truncate (t : Time) (d : Duration) : Time :=
  if decide (d <= 0) then t else t - t `mod` d.

End time.

(** ** IEEE 754 binary64, the [double] of SQLite's C code *)

(** A finite double is kept as the rational it stands for.  Each operation
    is the exact operation followed by rounding to 53 significant bits,
    ties to the even significand.  The exponent is left unbounded: the
    values met here, 64-bit integers, their sums over the rows of a table
    and the quotient by a row count, stay far from the overflow and
    underflow thresholds. *)
Module binary64.

Local Open Scope Q_scope.

(** The integer [l] with [2^l <= a < 2^(l+1)], for [0 < a]. *)
Definition ilog2 (a : Q) : Z :=
  if Qle_bool 1 a then Z.log2 (Qfloor a) else (- Z.log2_up (Qceiling (/ a)))%Z.

(** The integer nearest to [t]; of two equally near, the even one. *)
Definition rne (t : Q) : Z :=
  let f := Qfloor t in
  match Qcompare (t - inject_Z f) (1 # 2) with
  | Lt => f
  | Gt => (f + 1)%Z
  | Eq => if Z.even f then f else (f + 1)%Z
  end.

(** Rounding to a double: the significand is scaled into [2^52, 2^53),
    rounded to an integer and scaled back. *)
Definition round (q : Q) : Q :=
  if Qeq_bool q 0 then 0
  else
    let e := (ilog2 (Qabs q) - 52)%Z in
    inject_Z (rne (q / 2 ^ e)) * 2 ^ e.

(** [(double)z] for a 64-bit integer, [x + y] and [x / y] on doubles. *)
Definition of_int (z : Z) : Q := round (inject_Z z).
Definition add (x y : Q) : Q := round (x + y).
Definition div (x y : Q) : Q := round (x / y).

End binary64.

(** ** SQLite's scalar and aggregate functions used by the statements *)

(** The functions follow the C code of SQLite 3.40 ([func.c] and
    [vdbemem.c]); reals are doubles. *)
Module sql.

Local Open Scope Q_scope.

(** [AVG(X)]: NULL over no rows.  Otherwise each value is added, row by
    row, to a running sum held in a double ([rSum += v] in [sumStep]), and
    the result is that sum divided by the row count, both as doubles
    ([rSum/(double)cnt] in [avgFinalize]). *)
Definition AVG (xs : list Z) : option Q :=
  match xs with
  | [] => None
  | _ =>
      Some (binary64.div
              (foldl (fun rSum v => binary64.add rSum (binary64.of_int v)) 0 xs)
              (binary64.of_int (Z.of_nat (length xs))))
  end.

(** [IFNULL(X, Y)] *)
Definition IFNULL (x : option Q) (y : Q) : Q :=
  match x with
  | Some v => v
  | None => y
  end.

(** Conversion of a real to a 64-bit integer, as C does it: the fraction
    is dropped, so the result moves towards zero. *)
Definition Qtruncate (r : Q) : Z := (Qnum r ÷ Zpos (Qden r))%Z.

(** [ROUND(X)] ([roundFunc]): a double beyond [+-2^52] has no fraction and
    is returned as it is; otherwise
    [r = (double)((sqlite_int64)(r+(r<0?-0.5:+0.5)))], the addition being
    one of doubles. *)
Definition ROUND (r : Q) : Q :=
  if Qlt_le_dec r (- (4503599627370496 # 1)) then r
  else if Qlt_le_dec (4503599627370496 # 1) r then r
  else binary64.of_int
         (Qtruncate (binary64.add r (if Qlt_le_dec r 0 then - (1 # 2) else 1 # 2))).

(** The ends of the 64-bit integers. *)
Definition SMALLEST_INT64 : Z := (- 2 ^ 63)%Z.
Definition LARGEST_INT64 : Z := (2 ^ 63 - 1)%Z.

(** [CAST(X AS INTEGER)] of a real ([doubleToInt64]): the integer part,
    towards zero, held within the 64-bit integers. *)
Definition CAST_INTEGER (r : Q) : Z :=
  if Qle_bool r (binary64.of_int SMALLEST_INT64) then SMALLEST_INT64
  else if Qle_bool (binary64.of_int LARGEST_INT64) r then LARGEST_INT64
  else Qtruncate r.

End sql.

(** What the specification calls the nearest integer with ties away from
    zero, as a relation between a rational and an integer. *)
Definition nearest_ties_away (q : Q) (n : Z) : Prop :=
  (Qabs (inject_Z n - q) <= 1 # 2)%Q /\
  (Qabs (inject_Z n - q) == 1 # 2 -> Qabs q < Qabs (inject_Z n))%Q.

(** That integer, computed: add a half away from zero and drop the
    fraction. *)
Definition round_half_away (q : Q) : Z :=
  sql.Qtruncate (q + (if Qlt_le_dec q 0 then - (1 # 2) else 1 # 2))%Q.

(** The numbers a double can hold: an integer significand below [2^53] in
    absolute value, times a power of two. *)
Definition representable (x : Q) : Prop :=
  exists m e : Z, Z.abs m < 2 ^ 53 /\ (x == inject_Z m * 2 ^ e)%Q.

(** The mean of a non-empty multiset of member values. *)
Definition mean (xs : list Z) : Q :=
  (inject_Z (foldr Z.add 0%Z xs) / inject_Z (Z.of_nat (length xs)))%Q.


(** ** Go error values *)

(** The error values that travel through the code: [sql.ErrNoRows], any
    other error handed up by the driver (carried with its text), the
    application's [*wtf.Error], and [fmt.Errorf("<prefix>: %w", err)]. *)
Inductive error : Type :=
| ErrNoRows
| DriverError (text : string)
| Error (Code Message : string)
| Errorf (prefix : string) (err : error).

(** ** Package wtf: dials and events *)

Module wtf.

Record Dial : Type := mkDial {
  ID : Z;
  UserID : Z;
  Name : string;
  Value : Z;
  InviteCode : string;
  CreatedAt : time.Time;
  UpdatedAt : time.Time
}.

Inductive EventType : Type := EventTypeDialValueChanged.

(** [DialValueChangedPayload{ID, Value}] *)
Inductive Payload : Type := DialValueChangedPayload (ID Value : Z).

Record Event : Type := mkEvent { Type_ : EventType; Payload_ : Payload }.

(** The [EventService] interface: [PublishEvent(userID, event)] returns
    nothing; all it can do is change the service's own state. *)
Class EventService (ES : Type) : Type :=
  PublishEvent : ES -> Z -> Event -> ES.

(** [DialFilter]: the fields [findDials] reads.  [ID] and [InviteCode] are
    pointers, nil when the filter does not constrain them. *)
Module DialFilter.

Record t : Type := mk {
  ID : option Z;
  InviteCode : option string;
  Offset : Z;
  Limit : Z
}.

End DialFilter.

End wtf.

(** ** Package sqlite *)

Module sqlite.

Import time wtf.

(** Rows of [dial_memberships] and [dial_values], with the columns the
    statements of the source name. *)
Record dial_membership : Type := mkMembership {
  dm_dial_id : Z;
  dm_user_id : Z;
  dm_value : Z
}.

Record dial_value : Type := mkDialValue {
  dv_dial_id : Z;
  dv_timestamp : Time;
  dv_value : Z
}.

(** The tables as the transaction sees them. *)
Record Store : Type := mkStore {
  dials : list Dial;
  dial_memberships : list dial_membership;
  dial_values : list dial_value
}.

(** [*Tx]: the open transaction, its fixed [now], and the event service
    reached through [tx.db.EventService]. *)
Record Tx (ES : Type) : Type := mkTx {
  store : Store;
  now : Time;
  db_EventService : ES
}.
Arguments mkTx {ES} _ _ _.
Arguments store {ES} _.
Arguments now {ES} _.
Arguments db_EventService {ES} _.

(** Which storage calls fail in the driver, by call site.  A failure
    carries the driver's error text; [sql.ErrNoRows] is no failure but the
    answer of [QueryRow] to a query without rows.  The two cursor entries
    are indexed by the position of the row being fetched. *)
Record Faults : Type := mkFaults {
  select_value_fails : option string;
  select_avg_fails : option string;
  update_fails : option string;
  insert_fails : option string;
  select_members_fails : option string;
  next_fails : nat -> option string;
  scan_fails : nat -> option string
}.

Definition no_faults : Faults :=
  mkFaults None None None None None (fun _ => None) (fun _ => None).

Definition set_store {ES} (tx : Tx ES) (s : Store) : Tx ES :=
  mkTx s (now tx) (db_EventService tx).

Definition set_EventService {ES} (tx : Tx ES) (es : ES) : Tx ES :=
  mkTx (store tx) (now tx) es.

(** *** The statements *)

(** [SELECT value FROM dials WHERE id = ?] through [QueryRow(..).Scan]:
    the first matching row, [sql.ErrNoRows] when there is none. *)
Definition select_dial_value (fails : option string) (s : Store) (id : Z)
  : error + Z :=
  match fails with
  | Some text => inl (DriverError text)
  | None =>
      match filter (fun d => ID d = id) (dials s) with
      | [] => inl ErrNoRows
      | d :: _ => inr (Value d)
      end
  end.

(** A dial row with identifier [id] exists. *)
Definition dial_exists (s : Store) (id : Z) : Prop :=
  Exists (fun d => ID d = id) (dials s).

(** [SELECT CAST(ROUND(IFNULL(AVG(value), 0)) AS INTEGER)
     FROM dial_memberships WHERE dial_id = ?].
    An aggregate without GROUP BY always yields one row. *)
Definition computed_value (s : Store) (id : Z) : Z :=
  sql.CAST_INTEGER (sql.ROUND (sql.IFNULL
    (sql.AVG (dm_value <$> filter (fun m => dm_dial_id m = id) (dial_memberships s)))
    0%Q)).

Definition select_avg_value (fails : option string) (s : Store) (id : Z)
  : error + Z :=
  match fails with
  | Some text => inl (DriverError text)
  | None => inr (computed_value s id)
  end.

(** [UPDATE dials SET value = ?, updated_at = ? WHERE id = ?].  The
    [NullTime] wrapper only picks the column encoding of a [time.Time];
    the rows keep the instant itself. *)
Definition set_value (value : Z) (updated_at : Time) (d : Dial) : Dial :=
  mkDial (ID d) (UserID d) (Name d) value (InviteCode d) (CreatedAt d) updated_at.

Definition update_dial (id value : Z) (updated_at : Time) (s : Store) : Store :=
  mkStore
    ((fun d => if decide (ID d = id) then set_value value updated_at d else d)
       <$> dials s)
    (dial_memberships s)
    (dial_values s).

(** [INSERT INTO dial_values (dial_id, "timestamp", value) VALUES (?, ?, ?)
     ON CONFLICT (dial_id, "timestamp") DO UPDATE SET value = ?] *)
Definition conflicts (id : Z) (timestamp : Time) (r : dial_value) : Prop :=
  dv_dial_id r = id /\ dv_timestamp r = timestamp.

#[global] Instance conflicts_dec id timestamp r : Decision (conflicts id timestamp r).
Proof. unfold conflicts. apply _. Defined.

(** [DO UPDATE SET value = ?] on a row in conflict. *)
Definition overwrite (id : Z) (timestamp : Time) (value : Z) (r : dial_value)
  : dial_value :=
  if decide (conflicts id timestamp r)
  then mkDialValue (dv_dial_id r) (dv_timestamp r) value
  else r.

Definition upsert_dial_value (id : Z) (timestamp : Time) (value : Z)
    (rows : list dial_value) : list dial_value :=
  if decide (Exists (conflicts id timestamp) rows)
  then overwrite id timestamp value <$> rows
  else rows ++ [mkDialValue id timestamp value].

Definition insert_dial_value (id : Z) (timestamp : Time) (value : Z) (s : Store)
  : Store :=
  mkStore (dials s) (dial_memberships s)
          (upsert_dial_value id timestamp value (dial_values s)).

(** [SELECT user_id FROM dial_memberships WHERE dial_id = ?]; the rows
    come in table order. *)
Definition select_members (s : Store) (id : Z) : list Z :=
  dm_user_id <$> filter (fun m => dm_dial_id m = id) (dial_memberships s).

Section Pipeline.

Context {ES : Type} `{!EventService ES}.

(** [FormatError] is defined elsewhere in the package; it is called on
    non-nil errors only and may answer with any error or with nil. *)
Variable FormatError : error -> option error.

(** [insertDialValue] records a dial value at specific point in time. *)
Definition insertDialValue (fl : Faults) (tx : Tx ES) (id value : Z)
    (timestamp : Time) : option error * Tx ES :=
  (* Reduce our precision to only one update per minute. *)
  let timestamp := Truncate timestamp (1 * Minute) in
  match insert_fails fl with
  | Some text => (FormatError (DriverError text), tx)
  | None => (None, set_store tx (insert_dial_value id timestamp value (store tx)))
  end.

(** The loop [for rows.Next() { rows.Scan(&userID); PublishEvent(..) }]
    followed by [rows.Err()], from the row at position [k] on. *)
Fixpoint publish_rows (fl : Faults) (k : nat) (rows : list Z) (event : Event)
    (es : ES) : option error * ES :=
  match next_fails fl k with
  | Some text => (Some (DriverError text), es)
  | None =>
      match rows with
      | [] => (None, es)
      | userID :: rows' =>
          match scan_fails fl k with
          | Some text => (Some (DriverError text), es)
          | None => publish_rows fl (S k) rows' event (PublishEvent es userID event)
          end
      end
  end.

(** [publishDialEvent] publishes event to the dial members. *)
Definition publishDialEvent (fl : Faults) (tx : Tx ES) (id : Z) (event : Event)
    : option error * Tx ES :=
  match select_members_fails fl with
  | Some text => (FormatError (DriverError text), tx)
  | None =>
      let '(err, es) :=
        publish_rows fl 0 (select_members (store tx) id) event (db_EventService tx) in
      (err, set_EventService tx es)
  end.

(** [refreshDialValue] recomputes the WTF level of a dial by ID and saves
    it in dials.value. *)
Definition refreshDialValue (fl : Faults) (tx : Tx ES) (id : Z)
    : option error * Tx ES :=
  (* Fetch current dial value. *)
  match select_dial_value (select_value_fails fl) (store tx) id with
  | inl ErrNoRows => (None, tx)
  | inl err => (FormatError err, tx)
  | inr oldValue =>
      (* Compute average value from dial memberships. *)
      match
        match select_avg_value (select_avg_fails fl) (store tx) id with
        | inl ErrNoRows => inr 0
        | inl err => inl err
        | inr v => inr v
        end
      with
      | inl err => (FormatError err, tx)
      | inr newValue =>
          (* Exit if the value will not change. *)
          if decide (oldValue = newValue) then (None, tx) else
          (* Update value on dial. *)
          match update_fails fl with
          | Some text => (FormatError (DriverError text), tx)
          | None =>
              let tx1 := set_store tx (update_dial id newValue (now tx) (store tx)) in
              (* Record historical value into "dial_values" table. *)
              match insertDialValue fl tx1 id newValue (now tx1) with
              | (Some err, tx2) => (Some (Errorf "insert historical value" err), tx2)
              | (None, tx2) =>
                  (* Publish event to notify other members. *)
                  match publishDialEvent fl tx2 id
                          (mkEvent EventTypeDialValueChanged
                                   (DialValueChangedPayload id newValue)) with
                  | (Some err, tx3) => (Some (Errorf "publish dial event" err), tx3)
                  | (None, tx3) => (None, tx3)
                  end
              end
          end
      end
  end.

End Pipeline.

(** The event service after [PublishEvent(userID, event)] for each of
    [users] in turn. *)
Definition published {ES : Type} `{!EventService ES} (event : Event)
    (users : list Z) (es : ES) : ES :=
  foldl (fun es userID => PublishEvent es userID event) es users.

(** The tables after the UPDATE and the upsert of one recompute. *)
Definition refreshed (id newValue : Z) (t : Time) (s : Store) : Store :=
  insert_dial_value id (Truncate t (1 * Minute)) newValue
    (update_dial id newValue t s).

Definition value_changed (id newValue : Z) : Event :=
  mkEvent EventTypeDialValueChanged (DialValueChangedPayload id newValue).

(** A storage call of the load, recompute, update or history step is
    reached and fails in the driver. *)
Definition storage_failure (fl : Faults) (s : Store) (id : Z) : Prop :=
  is_Some (select_value_fails fl) \/
  (select_value_fails fl = None /\
   exists old, select_dial_value None s id = inr old /\
     (is_Some (select_avg_fails fl) \/
      (select_avg_fails fl = None /\ old <> computed_value s id /\
         (is_Some (update_fails fl) \/
          (update_fails fl = None /\ is_Some (insert_fails fl)))))).

(** The uniqueness constraint of [dial_values] on (dial_id, timestamp). *)
Definition key (r : dial_value) : Z * Time := (dv_dial_id r, dv_timestamp r).

Definition unique_samples (rows : list dial_value) : Prop :=
  NoDup (key <$> rows).

(** An event service that keeps the calls it received, oldest first. *)
#[global] Instance recorder : EventService (list (Z * Event)) :=
  fun log userID event => log ++ [(userID, event)].


(** A [FormatError] that hands every error back as it is. *)
Definition keep_error (err : error) : option error := Some err.

(** Modelled from the spec: the caller's transactional scope, which is not
    among the package's files at hand.  The caller opens the transaction
    on the committed tables with a timestamp fixed for the scope, runs the
    body inside it, commits when the body returns nil and rolls back when
    it returns an error.  Events already handed to the event service are
    outside the transaction. *)
Definition in_transaction {ES : Type} (body : Tx ES -> option error * Tx ES)
    (committed : Store) (t : Time) (es : ES) : option error * Store * ES :=
  let '(err, tx) := body (mkTx committed t es) in
  (err,
   match err with
   | None => store tx
   | Some _ => committed
   end,
   db_EventService tx).

(** *** Looking dials up *)

(** Which calls on a [QueryContext] cursor fail in the driver: the query
    itself, [rows.Next] before the row at a position (reported by
    [rows.Err]), [rows.Scan] of the row at a position. *)
Record QueryFaults : Type := mkQueryFaults {
  query_fails : option string;
  rows_next_fails : nat -> option string;
  rows_scan_fails : nat -> option string
}.

Definition no_query_faults : QueryFaults :=
  mkQueryFaults None (fun _ => None) (fun _ => None).

(** [id IN (SELECT dial_id FROM dial_memberships dm WHERE dm.user_id = ?)] *)
Definition member_of (s : Store) (userID : Z) (d : Dial) : Prop :=
  ID d ∈ dm_dial_id <$> filter (fun m => dm_user_id m = userID) (dial_memberships s).

(** The WHERE clause [findDials] builds: [1 = 1], [id = ?] when the filter
    names an ID, and either [invite_code = ?] or the membership test. *)
Definition where_clause (s : Store) (userID : Z) (f : DialFilter.t) (d : Dial)
  : Prop :=
  match DialFilter.ID f with
  | Some v => ID d = v
  | None => True
  end /\
  match DialFilter.InviteCode f with
  | Some v => InviteCode d = v
  | None => member_of s userID d
  end.

#[global] Instance where_clause_dec s userID f d : Decision (where_clause s userID f d).
Proof.
  unfold where_clause, member_of.
  destruct (DialFilter.ID f), (DialFilter.InviteCode f); apply _.
Defined.

(** [ORDER BY id ASC] *)
Definition by_id (d1 d2 : Dial) : Prop := ID d1 <= ID d2.

#[global] Instance by_id_dec d1 d2 : Decision (by_id d1 d2).
Proof. unfold by_id. apply _. Defined.

(** The rows of the SELECT in [findDials] before LIMIT and OFFSET apply,
    and the value of [COUNT( * ) OVER()] they all carry. *)
Definition matching_dials (s : Store) (userID : Z) (f : DialFilter.t) : list Dial :=
  merge_sort by_id (filter (where_clause s userID f) (dials s)).

Definition matching_count (s : Store) (userID : Z) (f : DialFilter.t) : Z :=
  Z.of_nat (length (filter (where_clause s userID f) (dials s))).

(** [SELECT COUNT(1) FROM dials WHERE id = ?] *)
Definition count_dials (s : Store) (id : Z) : Z :=
  Z.of_nat (length (filter (fun d => ID d = id) (dials s))).

Section Find.

Context {ES : Type}.

(** [FormatError] and [FormatLimitOffset] are defined elsewhere in the
    package.  The second builds the clause that follows ORDER BY;
    [limit_offset limit offset rows] is what that clause lets through of
    the ordered rows.  [wtf.ENOTFOUND] is a string constant of package wtf,
    and [wtf.UserIDFromContext(ctx)] is passed as [userID]. *)
Variable FormatError : error -> option error.
Variable limit_offset : Z -> Z -> list Dial -> list Dial.
Variable ENOTFOUND : string.

(** The loop [for rows.Next() { rows.Scan(.., &n); dials = append(dials, &dial) }]
    of [findDials] and the [rows.Err()] after it, from the row at position
    [k] on.  A nil slice is [None]. *)
Fixpoint scan_dials (qf : QueryFaults) (k : nat) (rows : list Dial) (count : Z)
    (dials : list Dial) (n : Z) : option (list Dial) * Z * option error :=
  match rows_next_fails qf k with
  | Some text => (None, 0, Some (DriverError text))
  | None =>
      match rows with
      | [] => (Some dials, n, None)
      | dial :: rows' =>
          match rows_scan_fails qf k with
          | Some text => (None, 0, Some (DriverError text))
          | None => scan_dials qf (S k) rows' count (dials ++ [dial]) count
          end
      end
  end.

(** [findDials] retrieves a list of matching dials.  Also returns a total
    matching count which may different from the number of results if
    filter.Limit is set. *)
Definition findDials (qf : QueryFaults) (tx : Tx ES) (userID : Z)
    (filter : DialFilter.t) : option (list Dial) * Z * option error :=
  match query_fails qf with
  | Some text => (None, 0, FormatError (DriverError text))
  | None =>
      scan_dials qf 0
        (limit_offset (DialFilter.Limit filter) (DialFilter.Offset filter)
           (matching_dials (store tx) userID filter))
        (matching_count (store tx) userID filter) [] 0
  end.

(** [findDialByID] is a helper function to retrieve a dial by ID.
    Returns ENOTFOUND if dial doesn't exist. *)
Definition findDialByID (qf : QueryFaults) (tx : Tx ES) (userID : Z) (id : Z)
    : option Dial * option error :=
  match findDials qf tx userID (DialFilter.mk (Some id) None 0 0) with
  | (_, _, Some err) => (None, Some err)
  | (Some (dial :: _), _, None) => (Some dial, None)
  | (_, _, None) => (None, Some (Error ENOTFOUND "Dial not found."))
  end.

(** [checkDialExists]: nil when a dial row has the id, ENOTFOUND when none
    has.  This is used to avoid permissions checks when inserting related
    objects. *)
Definition checkDialExists (fails : option string) (tx : Tx ES) (id : Z)
    : option error :=
  match fails with
  | Some text => FormatError (DriverError text)
  | None =>
      if decide (count_dials (store tx) id = 0)
      then Some (Error ENOTFOUND "Dial not found.")
      else None
  end.

End Find.

(** What LIMIT and OFFSET do to the ordered rows when both are positive,
    when only one is, and when neither is. *)
Definition limit_offset_sql (limit offset : Z) (rows : list Dial) : list Dial :=
  let rows := if decide (0 < offset) then drop (Z.to_nat offset) rows else rows in
  if decide (0 < limit) then take (Z.to_nat limit) rows else rows.

End sqlite.

(** ** Package http: application error codes and HTTP status codes *)

Module http.

(** Status codes of net/http. *)
Definition StatusBadRequest : Z := 400.
Definition StatusUnauthorized : Z := 401.
Definition StatusNotFound : Z := 404.
Definition StatusConflict : Z := 409.
Definition StatusInternalServerError : Z := 500.
Definition StatusNotImplemented : Z := 501.

Section Codes.

(** The application error codes are string constants of package wtf. *)
Variables ECONFLICT EINVALID ENOTFOUND ENOTIMPLEMENTED EUNAUTHORIZED EINTERNAL
  : string.

Definition codes_literal : list (string * Z) :=
  [ (ECONFLICT, StatusConflict);
    (EINVALID, StatusBadRequest);
    (ENOTFOUND, StatusNotFound);
    (ENOTIMPLEMENTED, StatusNotImplemented);
    (EUNAUTHORIZED, StatusUnauthorized);
    (EINTERNAL, StatusInternalServerError) ].

(** lookup of application error codes to HTTP status codes. *)
Definition codes : gmap string Z := list_to_map codes_literal.

(** [ErrorStatusCode] returns the associated HTTP status code for a WTF
    error code. *)
Definition ErrorStatusCode (code : string) : Z :=
  match codes !! code with
  | Some v => v
  | None => StatusInternalServerError
  end.

(** [FromErrorStatusCode] returns the associated WTF code for an HTTP
    status code.  [for k, v := range codes] visits every entry once, in
    an order the runtime chooses; [order] is that order. *)
Fixpoint FromErrorStatusCode (order : list (string * Z)) (code : Z) : string :=
  match order with
  | [] => EINTERNAL
  | (k, v) :: order' =>
      if decide (v = code) then k else FromErrorStatusCode order' code
  end.

(** The orders a [range] over [codes] can take. *)
Definition range_order (order : list (string * Z)) : Prop :=
  order ≡ₚ map_to_list codes.

End Codes.

(** *** Writing responses *)

Definition StatusFound : Z := 302.

(** [http.Cookie], with the fields [SetFlash] fills in. *)
Record Cookie : Type := mkCookie {
  cookie_Name : string;
  cookie_Value : string;
  cookie_Path : string;
  cookie_HttpOnly : bool
}.

(** [ErrorResponse] represents a JSON structure for error output. *)
Record ErrorResponse : Type := mkErrorResponse { response_Error : string }.

(** [html.ErrorTemplate] *)
Record ErrorTemplate : Type := mkErrorTemplate {
  tmpl_StatusCode : Z;
  tmpl_Header : string;
  tmpl_Message : string
}.

(** The parts of a request the code reads: method and path (for the log),
    the Accept header, the path variable [id] of the router, the body, and
    the request's context, which is only handed on. *)
Record Request (context : Type) : Type := mkRequest {
  Method : string;
  URL_Path : string;
  Accept : string;
  vars_id : string;
  Body : string;
  Context : context
}.
Arguments mkRequest {context} _ _ _ _ _ _.
Arguments Method {context} _.
Arguments URL_Path {context} _.
Arguments Accept {context} _.
Arguments vars_id {context} _.
Arguments Body {context} _.
Arguments Context {context} _.

(** What a handler does to the world outside, call by call and in order:
    calls on the [http.ResponseWriter], on the error counter, on the error
    reporter and on the logger. *)
Inductive effect : Type :=
| HeaderSet (key value : string)
| WriteHeader (statusCode : Z)
| Write (data : string)
| EncodeJSON (v : ErrorResponse)
| Render (tmpl : ErrorTemplate)
| SetCookie (cookie : Cookie)
| Redirect (url : string) (code : Z)
| CounterInc (code : string)
| ReportError (err : option error)
| LogPrintf (method path : string) (err : option error).

(** Calls that send the status line ([http.Redirect] does so itself), calls
    that send body bytes, and calls that change the headers still to be
    sent. *)
Definition writes_header (e : effect) : bool :=
  match e with
  | WriteHeader _ | Redirect _ _ => true
  | _ => false
  end.

Definition writes_body (e : effect) : bool :=
  match e with
  | Write _ | EncodeJSON _ | Render _ | Redirect _ _ => true
  | _ => false
  end.

Definition sets_header (e : effect) : bool :=
  match e with
  | HeaderSet _ _ | SetCookie _ => true
  | _ => false
  end.


(** Every change to the headers comes before the first call that sends
    anything: the [ResponseWriter] ignores header changes made later. *)
Fixpoint headers_first (l : list effect) : bool :=
  match l with
  | [] => true
  | e :: l' =>
      if writes_header e || writes_body e
      then forallb (fun e' => negb (sets_header e')) l'
      else headers_first l'
  end.

(** [SetFlash] sets the flash cookie for the next request to read. *)
Definition SetFlash (s : string) : list effect :=
  [SetCookie (mkCookie "flash" s "/" true)].

(** [LogError] logs an error with the HTTP route information. *)
Definition LogError {context : Type} (r : Request context) (err : option error)
  : list effect :=
  [LogPrintf (Method r) (URL_Path r) err].

(** The [DialService] of the server, with the two methods the handlers
    below call.  A call may change the service's state. *)
Class DialService (context S : Type) : Type := {
  DeleteDial : S -> context -> Z -> option error * S;
  SetDialMembershipValue : S -> context -> Z -> Z -> option error * S
}.

(** [wtf.Errorf(code, format)] with a format that has no verbs: the
    [*wtf.Error] with that code and message. *)
Definition wtf_Errorf (code message : string) : error := Error code message.

Section Handlers.

Variables ECONFLICT EINVALID ENOTFOUND ENOTIMPLEMENTED EUNAUTHORIZED EINTERNAL
  : string.

Context {context S : Type} `{!DialService context S}.

(** [wtf.ErrorCode] and [wtf.ErrorMessage] are defined in package wtf;
    [strconv.Atoi] and the JSON decoding of the request body into
    [jsonSetDialMembershipValueRequest] ([None] when they return an error)
    belong to Go's library. *)
Variable ErrorCode : option error -> string.
Variable ErrorMessage : option error -> string.
Variable Atoi : string -> option Z.
Variable Decode : string -> option Z.

(** [Error] prints & optionally logs an error message. *)
Definition Error (r : Request context) (err : option error) : list effect :=
  (* Extract error code & message. *)
  let code := ErrorCode err in
  let message := ErrorMessage err in
  (* Track metrics by code. *)
  [CounterInc code] ++
  (* Log & report internal errors. *)
  (if decide (code = EINTERNAL) then ReportError err :: LogError r err else []) ++
  (* Print user message to response based on reqeust accept header. *)
  (if decide (Accept r = "application/json")
   then [HeaderSet "Content-type" "application/json";
         WriteHeader (ErrorStatusCode ECONFLICT EINVALID ENOTFOUND ENOTIMPLEMENTED
                        EUNAUTHORIZED EINTERNAL code);
         EncodeJSON (mkErrorResponse message)]
   else [WriteHeader (ErrorStatusCode ECONFLICT EINVALID ENOTFOUND ENOTIMPLEMENTED
                        EUNAUTHORIZED EINTERNAL code);
         Render (mkErrorTemplate
                   (ErrorStatusCode ECONFLICT EINVALID ENOTFOUND ENOTIMPLEMENTED
                      EUNAUTHORIZED EINTERNAL code)
                   "An error has occurred." message)]).

(** [handleDialDelete] handles the "DELETE /dials/:id" route. *)
Definition handleDialDelete (s : S) (r : Request context) : list effect * S :=
  (* Parse dial ID from path. *)
  match Atoi (vars_id r) with
  | None => (Error r (Some (wtf_Errorf EINVALID "Invalid ID format")), s)
  | Some id =>
      (* Delete the dial from the database. *)
      match DeleteDial s (Context r) id with
      | (Some err, s') => (Error r (Some err), s')
      | (None, s') =>
          (* Render output to the client based on HTTP accept header. *)
          (if decide (Accept r = "application/json")
           then [HeaderSet "Content-type" "application/json"; Write "{}"]
           else SetFlash "Dial successfully deleted." ++ [Redirect "/dials" StatusFound],
           s')
      end
  end.

(** [handleDialSetMembershipValue] handles the "PUT /dials/:id/membership"
    route. *)
Definition handleDialSetMembershipValue (s : S) (r : Request context)
    : list effect * S :=
  match Decode (Body r) with
  | None => (Error r (Some (wtf_Errorf EINVALID "Invalid JSON body")), s)
  | Some value =>
      (* Parse dial ID from path. *)
      match Atoi (vars_id r) with
      | None => (Error r (Some (wtf_Errorf EINVALID "Invalid ID format")), s)
      | Some id =>
          (* Update value for the user's membership on the dial. *)
          match SetDialMembershipValue s (Context r) id value with
          | (Some err, s') => (Error r (Some err), s')
          | (None, s') =>
              (* Write response to indicate success. *)
              ([HeaderSet "Content-type" "application/json"; Write "{}"], s')
          end
      end
  end.

End Handlers.

End http.

(** ** Concrete transactions for the closed examples *)

Module example.

Import time wtf sqlite.

(** Dial 1 holds 0 and has two members, who say 1 and 2; a third
    membership belongs to dial 2, which has no row. *)
Definition s0 : Store :=
  mkStore [mkDial 1 7 "wtf" 0 "invite" 0 0]
          [mkMembership 1 7 1; mkMembership 1 8 2; mkMembership 2 9 50]
          [].

(** One minute and one second after the zero time. *)
Definition t0 : Time := 61 * Second.

Definition tx0 : Tx (list (Z * Event)) := mkTx s0 t0 [].

(** The same tables with two samples already in the history. *)
Definition s1 : Store :=
  mkStore (dials s0) (dial_memberships s0)
          [mkDialValue 2 0 50; mkDialValue 1 (60 * Second) 3].

Definition tx1 : Tx (list (Z * Event)) := mkTx s1 t0 [].

(** Dial 1 with three members, who say 2^51, 2^51 and 2^51 + 1. *)
Definition s_large : Store :=
  mkStore [mkDial 1 7 "wtf" 0 "invite" 0 0]
          [mkMembership 1 7 2251799813685248; mkMembership 1 8 2251799813685248;
           mkMembership 1 9 2251799813685249]
          [].

Definition tx_large : Tx (list (Z * Event)) := mkTx s_large t0 [].

(** Fault plans: the upsert fails; [rows.Scan] fails at one row. *)
Definition insert_fails_with (text : string) : Faults :=
  mkFaults None None None (Some text) None (fun _ => None) (fun _ => None).

Definition scan_fails_at (k0 : nat) (text : string) : Faults :=
  mkFaults None None None None None (fun _ => None)
           (fun k => if decide (k = k0) then Some text else None).

(** Three dials, stored out of id order.  User 7 is a member of dials 1
    and 3, user 8 of dial 2. *)
Definition s2 : Store :=
  mkStore [mkDial 3 7 "c" 30 "code3" 0 0; mkDial 1 7 "a" 10 "code1" 0 0;
           mkDial 2 8 "b" 20 "code2" 0 0]
          [mkMembership 1 7 10; mkMembership 2 8 20; mkMembership 3 7 30]
          [].

Definition tx2 : Tx unit := mkTx s2 t0 tt.

Definition rows_scan_fails_at (k0 : nat) (text : string) : QueryFaults :=
  mkQueryFaults None (fun _ => None)
                (fun k => if decide (k = k0) then Some text else None).

(** Stand-ins for the functions of package wtf and of Go's library that
    the handlers call, good for the strings used below. *)
Definition code_of (err : option error) : string :=
  match err with
  | Some (Error code _) => code
  | Some _ => "internal"
  | None => ""
  end.

Definition message_of (err : option error) : string :=
  match err with
  | Some (Error _ message) => message
  | _ => "Internal error."
  end.

Definition parse_7 (s : string) : option Z :=
  if decide (s = "7") then Some 7 else None.

(** A dial service that accepts every call and keeps a list of them. *)
#[global] Instance calls : http.DialService unit (list (Z * option Z)) := {
  http.DeleteDial := fun s _ id => (None, s ++ [(id, None)]);
  http.SetDialMembershipValue := fun s _ id value => (None, s ++ [(id, Some value)])
}.

Definition request (accept id body : string) : http.Request unit :=
  http.mkRequest "PUT" "/dials" accept id body tt.

End example.

(** * Properties *)

Section Rounding.

Local Open Scope Q_scope.

Import sql.

Lemma Qtruncate_neg (q : Q) : q < 0 -> Qtruncate q = Qceiling q.
Proof.
  destruct q as [n d]. unfold Qlt, Qtruncate, Qceiling, Qfloor. simpl.
  intros Hq. rewrite Z.mul_1_r in Hq.
  rewrite <- (Z.opp_involutive n) at 1.
  rewrite Z.quot_opp_l by lia.
  rewrite Z.quot_div_nonneg by lia. reflexivity.
Qed.

Lemma Qtruncate_nonneg (q : Q) : 0 <= q -> Qtruncate q = Qfloor q.
Proof.
  destruct q as [n d]. unfold Qle, Qtruncate, Qfloor. simpl.
  intros Hq. rewrite Z.mul_1_r in Hq.
  apply Z.quot_div_nonneg; lia.
Qed.

Lemma Qtruncate_inject_Z (n : Z) : Qtruncate (inject_Z n) = n.
Proof. unfold Qtruncate. simpl. apply Z.quot_1_r. Qed.

Lemma round_half_away_nearest (r : Q) :
  nearest_ties_away r (round_half_away r).
Proof.
  unfold round_half_away, nearest_ties_away.
  destruct (Qlt_le_dec r 0) as [Hneg | Hpos].
  - rewrite Qtruncate_neg by lra.
    pose proof (Qle_ceiling (r + - (1 # 2))) as Hle.
    pose proof (Qceiling_lt (r + - (1 # 2))) as Hlt.
    set (n := Qceiling (r + - (1 # 2))) in *.
    assert (Hn1 : inject_Z (n - 1) == inject_Z n - 1).
    { unfold Z.sub. rewrite inject_Z_plus. reflexivity. }
    rewrite Hn1 in Hlt. clear Hn1.
    split.
    + apply Qabs_Qle_condition. split; lra.
    + intros Htie.
      assert (Hn : inject_Z n < r).
      { revert Htie. apply (Qabs_case (inject_Z n - r)); intros; lra. }
      rewrite (Qabs_neg r) by lra. rewrite (Qabs_neg (inject_Z n)) by lra.
      lra.
  - rewrite Qtruncate_nonneg by lra.
    pose proof (Qfloor_le (r + (1 # 2))) as Hle.
    pose proof (Qlt_floor (r + (1 # 2))) as Hlt.
    set (n := Qfloor (r + (1 # 2))) in *.
    assert (Hn1 : inject_Z (n + 1) == inject_Z n + 1).
    { rewrite inject_Z_plus. reflexivity. }
    rewrite Hn1 in Hlt. clear Hn1.
    split.
    + apply Qabs_Qle_condition. split; lra.
    + intros Htie.
      assert (Hn : r < inject_Z n).
      { revert Htie. apply (Qabs_case (inject_Z n - r)); intros; lra. }
      rewrite (Qabs_pos r) by lra. rewrite (Qabs_pos (inject_Z n)) by lra.
      lra.
Qed.

Lemma integer_sign (n : Z) : 0 <= inject_Z n \/ inject_Z n <= - (1).
Proof.
  destruct (Z_lt_le_dec n 0) as [Hlt | Hge].
  - right. change (- (1)) with (inject_Z (- 1)). rewrite <- Zle_Qle. lia.
  - left. change 0 with (inject_Z 0). rewrite <- Zle_Qle. lia.
Qed.

(** The relation pins the integer down: two integers that are both
    nearest with ties away from zero are equal. *)
Lemma nearest_ties_away_unique (q : Q) (n m : Z) :
  nearest_ties_away q n -> nearest_ties_away q m -> n = m.
Proof.
  intros [Hn Hn'] [Hm Hm'].
  apply Qabs_Qle_condition in Hn. apply Qabs_Qle_condition in Hm.
  destruct (Z_lt_le_dec n m) as [Hlt | Hge]; [exfalso |].
  - assert (H1 : inject_Z (n + 1) <= inject_Z m).
    { rewrite <- Zle_Qle. lia. }
    rewrite inject_Z_plus in H1. change (inject_Z 1) with 1 in H1.
    assert (Hqn : inject_Z n - q == - (1 # 2)) by lra.
    assert (Hqm : inject_Z m - q == 1 # 2) by lra.
    assert (Hn2 : Qabs (inject_Z n - q) == 1 # 2).
    { rewrite Hqn. reflexivity. }
    assert (Hm2 : Qabs (inject_Z m - q) == 1 # 2).
    { rewrite Hqm. reflexivity. }
    specialize (Hn' Hn2). specialize (Hm' Hm2).
    pose proof (integer_sign n) as Hsign.
    revert Hn' Hm'.
    apply (Qabs_case q); intros Hq;
      apply (Qabs_case (inject_Z n)); intros Hzn;
      apply (Qabs_case (inject_Z m)); intros Hzm; lra.
  - destruct (Z.eq_dec n m) as [Heq | Hne]; [exact Heq | exfalso].
    assert (H1 : inject_Z (m + 1) <= inject_Z n).
    { rewrite <- Zle_Qle. lia. }
    rewrite inject_Z_plus in H1. change (inject_Z 1) with 1 in H1.
    assert (Hqm : inject_Z m - q == - (1 # 2)) by lra.
    assert (Hqn : inject_Z n - q == 1 # 2) by lra.
    assert (Hn2 : Qabs (inject_Z n - q) == 1 # 2).
    { rewrite Hqn. reflexivity. }
    assert (Hm2 : Qabs (inject_Z m - q) == 1 # 2).
    { rewrite Hqm. reflexivity. }
    specialize (Hn' Hn2). specialize (Hm' Hm2).
    pose proof (integer_sign m) as Hsign.
    revert Hn' Hm'.
    apply (Qabs_case q); intros Hq;
      apply (Qabs_case (inject_Z n)); intros Hzn;
      apply (Qabs_case (inject_Z m)); intros Hzm; lra.
Qed.

End Rounding.

(** ** Rounding to a double *)

Section Binary64.

Local Open Scope Q_scope.

Import binary64 sql.

Lemma inject_Z_succ (z : Z) : inject_Z (z + 1) == inject_Z z + 1.
Proof. rewrite inject_Z_plus. reflexivity. Qed.

Lemma inject_Z_pred (z : Z) : inject_Z (z - 1) == inject_Z z - 1.
Proof.
  replace (z - 1)%Z with (z + - 1)%Z by lia. rewrite inject_Z_plus.
  change (inject_Z (- 1)) with (- 1). lra.
Qed.

Lemma rne_floor (t : Q) :
  (rne t = Qfloor t /\ t - inject_Z (Qfloor t) <= 1 # 2) \/
  (rne t = (Qfloor t + 1)%Z /\ 1 # 2 <= t - inject_Z (Qfloor t)).
Proof.
  unfold rne.
  destruct (Qcompare_spec (t - inject_Z (Qfloor t)) (1 # 2)) as [Heq | Hlt | Hgt].
  - destruct (Z.even (Qfloor t)); [left | right]; (split; [reflexivity | lra]).
  - left. split; [reflexivity | lra].
  - right. split; [reflexivity | lra].
Qed.

(** No integer is nearer to [t] than [rne t]. *)
Lemma rne_nearest (t : Q) (z : Z) :
  Qabs (inject_Z (rne t) - t) <= Qabs (inject_Z z - t).
Proof.
  pose proof (Qfloor_le t) as Hle. pose proof (Qlt_floor t) as Hlt.
  rewrite inject_Z_succ in Hlt.
  assert (Hz : inject_Z z <= inject_Z (Qfloor t) \/
               inject_Z (Qfloor t) + 1 <= inject_Z z).
  { destruct (Z_le_gt_dec z (Qfloor t)) as [Hz | Hz].
    - left. by rewrite <- Zle_Qle.
    - right. rewrite <- inject_Z_succ, <- Zle_Qle. lia. }
  destruct (rne_floor t) as [[-> Hhalf] | [-> Hhalf]];
    rewrite ?inject_Z_succ;
    apply Qabs_case; intros H1; apply Qabs_case; intros H2; lra.
Qed.

Lemma rne_half (t : Q) : Qabs (inject_Z (rne t) - t) <= 1 # 2.
Proof.
  pose proof (Qfloor_le t) as Hle. pose proof (Qlt_floor t) as Hlt.
  rewrite inject_Z_succ in Hlt.
  destruct (rne_floor t) as [[-> Hhalf] | [-> Hhalf]];
    rewrite ?inject_Z_succ; apply Qabs_case; intros H1; lra.
Qed.

Lemma pow2_pos (e : Z) : 0 < 2 ^ e.
Proof. apply Qpower_0_lt. reflexivity. Qed.

Lemma pow2_Z (k : Z) : (0 <= k)%Z -> 2 ^ k == inject_Z (2 ^ k).
Proof. intros Hk. symmetry. by apply (Zpower_Qpower 2 k). Qed.

(** [ilog2] finds a power of two at or below its argument. *)
Lemma ilog2_le (a : Q) : 0 < a -> 2 ^ ilog2 a <= a.
Proof.
  intros Ha. unfold ilog2.
  destruct (Qle_bool 1 a) eqn:Hone.
  - apply Qle_bool_iff in Hone.
    assert (Hn : (1 <= Qfloor a)%Z).
    { change 1%Z with (Qfloor 1). by apply Qfloor_resp_le. }
    destruct (Z.log2_spec (Qfloor a)) as [Hlo _]; [lia |].
    rewrite pow2_Z by apply Z.log2_nonneg.
    apply Qle_trans with (inject_Z (Qfloor a)); [by rewrite <- Zle_Qle |].
    apply Qfloor_le.
  - assert (Hlt : a < 1).
    { apply Qnot_le_lt. intros Hle. apply Qle_bool_iff in Hle. congruence. }
    pose proof (Qle_ceiling (/ a)) as Hc.
    pose proof (Z.log2_up_nonneg (Qceiling (/ a))) as Hk.
    assert (Hup : (Qceiling (/ a) <= 2 ^ Z.log2_up (Qceiling (/ a)))%Z).
    { destruct (Z_le_gt_dec (Qceiling (/ a)) 1) as [Hsmall | Hbig].
      - pose proof (Z.pow_pos_nonneg 2 (Z.log2_up (Qceiling (/ a)))). lia.
      - apply Z.log2_up_spec. lia. }
    rewrite Qpower_opp, pow2_Z by done.
    apply Qle_shift_inv_r.
    + change 0 with (inject_Z 0). rewrite <- Zlt_Qlt.
      apply Z.pow_pos_nonneg; lia.
    + assert (Hinv : / a <= inject_Z (2 ^ Z.log2_up (Qceiling (/ a)))).
      { apply Qle_trans with (inject_Z (Qceiling (/ a))); [done |].
        by rewrite <- Zle_Qle. }
      assert (Hone' : 1 == / a * a).
      { rewrite Qmult_comm. symmetry. apply Qmult_inv_r. lra. }
      rewrite Hone'. rewrite (Qmult_comm a).
      apply Qmult_le_compat_r; [exact Hinv | lra].
Qed.


Lemma Qabs_scale (a b u : Q) :
  0 < u -> Qabs (a * u - b * u) == Qabs (a - b) * u.
Proof.
  intros Hu.
  assert (H : a * u - b * u == (a - b) * u) by ring.
  rewrite H, Qabs_Qmult, (Qabs_pos u) by lra. reflexivity.
Qed.

Lemma round_nonzero (q : Q) :
  ~ q == 0 ->
  round q = inject_Z (rne (q / 2 ^ (ilog2 (Qabs q) - 52))) * 2 ^ (ilog2 (Qabs q) - 52).
Proof.
  intros Hq. unfold round.
  destruct (Qeq_bool q 0) eqn:Hz; [| reflexivity].
  by apply Qeq_bool_iff in Hz.
Qed.

(** The scaled significand has at least 53 bits. *)
Lemma scaled_ge (q : Q) :
  ~ q == 0 -> 2 ^ 52 <= Qabs (q / 2 ^ (ilog2 (Qabs q) - 52)).
Proof.
  intros Hq.
  assert (Ha : 0 < Qabs q).
  { apply Qabs_case; intros H; lra. }
  pose proof (ilog2_le _ Ha) as Hlog.
  pose proof (pow2_pos (ilog2 (Qabs q) - 52)) as Hu.
  unfold Qdiv. rewrite Qabs_Qmult, (Qabs_pos (/ _)).
  2: { apply Qlt_le_weak, Qinv_lt_0_compat, Hu. }
  apply Qle_shift_div_l; [exact Hu |].
  rewrite <- Qpower_plus by discriminate.
  replace (52 + (ilog2 (Qabs q) - 52))%Z with (ilog2 (Qabs q)) by lia.
  exact Hlog.
Qed.

(** A double with a coarser exponent lies at least half a unit from every
    scaled significand of 53 bits. *)
Lemma nearest_scaled (t : Q) (m d : Z) :
  2 ^ 52 <= Qabs t ->
  (Z.abs m < 2 ^ 53)%Z ->
  Qabs (inject_Z (rne t) - t) <= Qabs (inject_Z m * 2 ^ d - t).
Proof.
  intros Ht Hm.
  destruct (Z_le_gt_dec 0 d) as [Hd | Hd].
  - rewrite pow2_Z, <- inject_Z_mult by done. apply rne_nearest.
  - apply Qle_trans with (1 # 2); [apply rne_half |].
    assert (Hg : 0 < 2 ^ d <= 1 # 2).
    { split; [apply pow2_pos |].
      replace d with (- (- d))%Z by lia. rewrite Qpower_opp.
      apply Qle_shift_inv_r; [apply pow2_pos |].
      assert (H2 : 2 ^ 1 <= 2 ^ (- d)).
      { apply Qpower_le_compat_l; [lia | discriminate]. }
      change (2 ^ 1) with 2 in H2. lra. }
    assert (Hlo : - (9007199254740991 # 1) <= inject_Z m).
    { change (- (9007199254740991 # 1)) with (inject_Z (- 9007199254740991)).
      rewrite <- Zle_Qle. lia. }
    assert (Hhi : inject_Z m <= 9007199254740991 # 1).
    { change (9007199254740991 # 1) with (inject_Z 9007199254740991).
      rewrite <- Zle_Qle. lia. }
    change (2 ^ 52) with (4503599627370496 # 1) in Ht.
    set (g := 2 ^ d) in *. set (x := inject_Z m) in *.
    assert (Hx : - (9007199254740991 # 2) <= x * g <= 9007199254740991 # 2)
      by (split; nra).
    revert Ht. apply Qabs_case; intros H1 Ht; apply Qabs_case; intros H2; lra.
Qed.

(** Rounding gives a nearest double: no representable number is nearer. *)
Lemma round_nearest (q f : Q) :
  representable f -> Qabs (round q - q) <= Qabs (f - q).
Proof.
  intros (m & e' & Hm & Hf).
  destruct (Qeq_dec q 0) as [Hz | Hnz].
  - assert (Hr : round q = 0).
    { unfold round. apply Qeq_bool_iff in Hz. by rewrite Hz. }
    rewrite Hr. apply Qabs_case; intros H1; apply Qabs_case; intros H2; lra.
  - rewrite round_nonzero by done.
    pose proof (scaled_ge q Hnz) as Ht.
    set (e := (ilog2 (Qabs q) - 52)%Z) in *.
    pose proof (pow2_pos e) as Hu.
    assert (Hq : q == q / 2 ^ e * 2 ^ e) by (field; lra).
    assert (Hf' : f == inject_Z m * 2 ^ (e' - e) * 2 ^ e).
    { rewrite Hf, Qpower_minus by discriminate. field. lra. }
    set (t := q / 2 ^ e) in *.
    rewrite Hf', Hq.
    rewrite !Qabs_scale by done.
    apply Qmult_le_compat_r; [| lra].
    by apply nearest_scaled.
Qed.

Lemma round_exact (x : Q) : representable x -> round x == x.
Proof.
  intros Hx. pose proof (round_nearest x x Hx) as H.
  revert H. apply Qabs_case; intros H1; apply Qabs_case; intros H2 H; lra.
Qed.

Lemma round_ge (a x : Q) : representable a -> a <= x -> a <= round x.
Proof.
  intros Ha Hle. pose proof (round_nearest x a Ha) as H.
  revert H. apply Qabs_case; intros H1; apply Qabs_case; intros H2 H; lra.
Qed.

Lemma round_le (b x : Q) : representable b -> x <= b -> round x <= b.
Proof.
  intros Hb Hle. pose proof (round_nearest x b Hb) as H.
  revert H. apply Qabs_case; intros H1; apply Qabs_case; intros H2 H; lra.
Qed.

(** Rounding depends on the value of a rational, not on the fraction
    that denotes it. *)
Lemma round_comp (q q' : Q) : q == q' -> round q = round q'.
Proof.
  intros Heq. unfold round.
  assert (Hz : Qeq_bool q 0 = Qeq_bool q' 0).
  { destruct (Qeq_bool q' 0) eqn:H'.
    - apply Qeq_bool_iff. apply Qeq_bool_iff in H'. by rewrite Heq.
    - destruct (Qeq_bool q 0) eqn:H; [| done].
      apply Qeq_bool_iff in H. rewrite Heq in H.
      apply Qeq_bool_iff in H. congruence. }
  rewrite Hz. destruct (Qeq_bool q' 0); [done |].
  assert (Hl : ilog2 (Qabs q) = ilog2 (Qabs q')).
  { assert (Ha : Qabs q == Qabs q') by (by rewrite Heq).
    unfold ilog2.
    assert (Hb : Qle_bool 1 (Qabs q) = Qle_bool 1 (Qabs q')).
    { destruct (Qle_bool 1 (Qabs q')) eqn:H'.
      - apply Qle_bool_iff. apply Qle_bool_iff in H'. by rewrite Ha.
      - destruct (Qle_bool 1 (Qabs q)) eqn:H; [| done].
        apply Qle_bool_iff in H. rewrite Ha in H.
        apply Qle_bool_iff in H. congruence. }
    rewrite Hb. destruct (Qle_bool 1 (Qabs q')).
    - by rewrite Ha.
    - by rewrite Ha. }
  rewrite Hl. cbv zeta.
  set (e := (ilog2 (Qabs q') - 52)%Z).
  assert (Ht : q / 2 ^ e == q' / 2 ^ e) by (by rewrite Heq).
  assert (Hr : rne (q / 2 ^ e) = rne (q' / 2 ^ e)).
  { unfold rne. cbv zeta. rewrite (Qfloor_comp _ _ Ht).
    assert (Hc : (q / 2 ^ e - inject_Z (Qfloor (q' / 2 ^ e)) ?= 1 # 2) =
                 (q' / 2 ^ e - inject_Z (Qfloor (q' / 2 ^ e)) ?= 1 # 2)).
    { apply Qcompare_comp; [by rewrite Ht | reflexivity]. }
    by rewrite Hc. }
  by rewrite Hr.
Qed.


(** [ilog2] is the exponent of its argument: the next power of two lies
    above. *)
Lemma ilog2_lt (a : Q) : 0 < a -> a < 2 ^ (ilog2 a + 1).
Proof.
  intros Ha. unfold ilog2.
  destruct (Qle_bool 1 a) eqn:Hone.
  - apply Qle_bool_iff in Hone.
    assert (Hn : (1 <= Qfloor a)%Z).
    { change 1%Z with (Qfloor 1). by apply Qfloor_resp_le. }
    destruct (Z.log2_spec (Qfloor a)) as [_ Hhi]; [lia |].
    pose proof (Z.log2_nonneg (Qfloor a)) as Hl.
    rewrite pow2_Z by lia.
    apply Qlt_le_trans with (inject_Z (Qfloor a + 1)); [apply Qlt_floor |].
    rewrite <- Zle_Qle. unfold Z.succ in Hhi. lia.
  - assert (Hlt : a < 1).
    { apply Qnot_le_lt. intros Hle. apply Qle_bool_iff in Hle. congruence. }
    assert (Hinv : 1 < / a).
    { apply Qlt_shift_inv_l; [done | lra]. }
    pose proof (Qle_ceiling (/ a)) as Hc.
    pose proof (Qceiling_lt (/ a)) as Hc'. rewrite inject_Z_pred in Hc'.
    assert (Hc2 : (1 < Qceiling (/ a))%Z).
    { rewrite Zlt_Qlt. change (inject_Z 1) with 1. lra. }
    destruct (Z.log2_up_spec (Qceiling (/ a)) Hc2) as [Hlo _].
    pose proof (Z.log2_up_pos (Qceiling (/ a)) Hc2) as Hk.
    replace (- Z.log2_up (Qceiling (/ a)) + 1)%Z
      with (- Z.pred (Z.log2_up (Qceiling (/ a))))%Z by lia.
    rewrite Qpower_opp, pow2_Z by lia.
    assert (Hp : 0 < inject_Z (2 ^ Z.pred (Z.log2_up (Qceiling (/ a))))).
    { change 0 with (inject_Z 0). rewrite <- Zlt_Qlt.
      apply Z.pow_pos_nonneg; lia. }
    assert (Hle : inject_Z (2 ^ Z.pred (Z.log2_up (Qceiling (/ a)))) + 1 <=
                  inject_Z (Qceiling (/ a))).
    { rewrite <- inject_Z_succ, <- Zle_Qle. lia. }
    apply Qlt_shift_inv_l; [exact Hp |].
    assert (Hone' : / a * a == 1) by (field; lra).
    nra.
Qed.

(** What rounding returns is a double. *)
Lemma round_representable (q : Q) : representable (round q).
Proof.
  destruct (Qeq_dec q 0) as [Hz | Hnz].
  - assert (Hr : round q = 0).
    { unfold round. apply Qeq_bool_iff in Hz. by rewrite Hz. }
    rewrite Hr. exists 0%Z, 0%Z. split; [done | reflexivity].
  - rewrite round_nonzero by done.
    assert (Ha : 0 < Qabs q).
    { apply Qabs_case; intros H; lra. }
    pose proof (ilog2_lt _ Ha) as Hlog.
    set (e := (ilog2 (Qabs q) - 52)%Z) in *.
    pose proof (pow2_pos e) as Hu.
    assert (Ht : Qabs (q / 2 ^ e) < 9007199254740992 # 1).
    { unfold Qdiv. rewrite Qabs_Qmult, (Qabs_pos (/ _)).
      2: { apply Qlt_le_weak, Qinv_lt_0_compat, Hu. }
      apply Qlt_shift_div_r; [exact Hu |].
      change (9007199254740992 # 1) with (2 ^ 53).
      rewrite <- Qpower_plus by discriminate.
      replace (53 + e)%Z with (ilog2 (Qabs q) + 1)%Z by (unfold e; lia).
      exact Hlog. }
    pose proof (rne_half (q / 2 ^ e)) as Hhalf.
    set (z := rne (q / 2 ^ e)) in *.
    assert (Hz : (Z.abs z <= 9007199254740992)%Z).
    { assert (H1 : inject_Z z < inject_Z 9007199254740993).
      { change (inject_Z 9007199254740993) with (9007199254740993 # 1).
        revert Ht Hhalf.
        apply Qabs_case; intros H1 Ht; apply Qabs_case; intros H2 Hhalf; lra. }
      assert (H2 : inject_Z (- 9007199254740993) < inject_Z z).
      { change (inject_Z (- 9007199254740993)) with (- (9007199254740993 # 1)).
        revert Ht Hhalf.
        apply Qabs_case; intros H1' Ht; apply Qabs_case; intros H2 Hhalf; lra. }
      rewrite <- Zlt_Qlt in H1, H2. lia. }
    destruct (Z_lt_le_dec (Z.abs z) 9007199254740992) as [Hlt | Hge].
    + exists z, e. split; [exact Hlt | reflexivity].
    + exists (z / 2)%Z, (e + 1)%Z.
      assert (Hcase : z = 9007199254740992%Z \/ z = (- 9007199254740992)%Z) by lia.
      split.
      * destruct Hcase as [-> | ->]; reflexivity.
      * rewrite Qpower_plus by discriminate.
        destruct Hcase as [-> | ->]; vm_compute (inject_Z _); field.
Qed.

Lemma Qfloor_unique (x : Q) (k : Z) :
  inject_Z k <= x -> x < inject_Z k + 1 -> Qfloor x = k.
Proof.
  intros Hlo Hhi.
  pose proof (Qfloor_le x) as Hle. pose proof (Qlt_floor x) as Hlt.
  rewrite inject_Z_succ in Hlt.
  destruct (Z.lt_trichotomy (Qfloor x) k) as [H | [H | H]]; [exfalso | done | exfalso].
  - assert (H' : inject_Z (Qfloor x) + 1 <= inject_Z k).
    { rewrite <- inject_Z_succ, <- Zle_Qle. lia. }
    lra.
  - assert (H' : inject_Z k + 1 <= inject_Z (Qfloor x)).
    { rewrite <- inject_Z_succ, <- Zle_Qle. lia. }
    lra.
Qed.

Lemma Qceiling_unique (x : Q) (k : Z) :
  inject_Z k - 1 < x -> x <= inject_Z k -> Qceiling x = k.
Proof.
  intros Hlo Hhi. unfold Qceiling.
  assert (H : Qfloor (- x) = (- k)%Z).
  { apply Qfloor_unique; rewrite inject_Z_opp; lra. }
  rewrite H. lia.
Qed.

Lemma Qtruncate_comp (r r' : Q) : r == r' -> Qtruncate r = Qtruncate r'.
Proof.
  intros Heq. destruct (Qlt_le_dec r 0) as [Hneg | Hpos].
  - rewrite !Qtruncate_neg by lra. by apply Qceiling_comp.
  - rewrite !Qtruncate_nonneg by lra. by apply Qfloor_comp.
Qed.

Lemma Qtruncate_floor (x : Q) (k : Z) :
  (0 <= k)%Z -> inject_Z k <= x -> x < inject_Z k + 1 -> Qtruncate x = k.
Proof.
  intros Hk Hlo Hhi.
  assert (H0 : 0 <= inject_Z k).
  { change 0 with (inject_Z 0). by rewrite <- Zle_Qle. }
  rewrite Qtruncate_nonneg by lra. by apply Qfloor_unique.
Qed.

Lemma Qtruncate_ceiling (x : Q) (k : Z) :
  (k <= 0)%Z -> inject_Z k - 1 < x -> x <= inject_Z k -> Qtruncate x = k.
Proof.
  intros Hk Hlo Hhi.
  assert (H0 : inject_Z k <= 0).
  { change 0 with (inject_Z 0). by rewrite <- Zle_Qle. }
  destruct (Qlt_le_dec x 0) as [Hneg | Hpos].
  - rewrite Qtruncate_neg by done. by apply Qceiling_unique.
  - rewrite Qtruncate_nonneg by done. apply Qfloor_unique; lra.
Qed.

Lemma representable_Z (z : Z) : (Z.abs z < 2 ^ 53)%Z -> representable (inject_Z z).
Proof.
  intros Hz. exists z, 0%Z. split; [done |]. change (2 ^ 0) with 1. ring.
Qed.

Lemma representable_half (z : Z) :
  (Z.abs z < 2 ^ 53)%Z -> representable (inject_Z z * (1 # 2)).
Proof. intros Hz. exists z, (-1)%Z. split; [done | reflexivity]. Qed.

Lemma representable_dyadic (z j : Z) :
  (0 <= j)%Z -> (Z.abs z < 2 ^ 53)%Z ->
  representable (inject_Z z / inject_Z (2 ^ j)).
Proof.
  intros Hj Hz. exists z, (- j)%Z. split; [done |].
  by rewrite Qpower_opp, pow2_Z.
Qed.

Lemma of_int_exact (z : Z) : (Z.abs z < 2 ^ 53)%Z -> of_int z == inject_Z z.
Proof. intros Hz. by apply round_exact, representable_Z. Qed.

Lemma CAST_INTEGER_of_int (k : Z) :
  (Z.abs k < 2 ^ 53)%Z -> CAST_INTEGER (of_int k) = k.
Proof.
  intros Hk. pose proof (of_int_exact k Hk) as Hex.
  assert (Hlo : - (9007199254740992 # 1) < inject_Z k).
  { change (- (9007199254740992 # 1)) with (inject_Z (- 9007199254740992)).
    rewrite <- Zlt_Qlt. lia. }
  assert (Hhi : inject_Z k < 9007199254740992 # 1).
  { change (9007199254740992 # 1) with (inject_Z 9007199254740992).
    rewrite <- Zlt_Qlt. lia. }
  assert (Hmin : of_int SMALLEST_INT64 == - (9223372036854775808 # 1))
    by (vm_compute; reflexivity).
  assert (Hmax : of_int LARGEST_INT64 == 9223372036854775808 # 1)
    by (vm_compute; reflexivity).
  unfold CAST_INTEGER.
  destruct (Qle_bool (of_int k) (of_int SMALLEST_INT64)) eqn:H1.
  { apply Qle_bool_iff in H1. lra. }
  destruct (Qle_bool (of_int LARGEST_INT64) (of_int k)) eqn:H2.
  { apply Qle_bool_iff in H2. lra. }
  rewrite (Qtruncate_comp _ _ Hex). apply Qtruncate_inject_Z.
Qed.

(** [ROUND] and the cast on a double that is not negative and stays a
    margin [g] below the next half. *)
Lemma ROUND_nonneg (r g : Q) (k : Z) :
  (0 <= k < 2 ^ 52)%Z -> 0 < g ->
  representable (inject_Z k + 1 - g) ->
  0 <= r -> inject_Z k - (1 # 2) <= r -> r <= inject_Z k + (1 # 2) - g ->
  CAST_INTEGER (ROUND r) = k.
Proof.
  intros Hk Hg Hrep H0 Hlo Hhi.
  assert (Hk' : inject_Z k <= 4503599627370495 # 1).
  { change (4503599627370495 # 1) with (inject_Z 4503599627370495).
    rewrite <- Zle_Qle. lia. }
  unfold ROUND.
  destruct (Qlt_le_dec r (- (4503599627370496 # 1))) as [H | _]; [lra |].
  destruct (Qlt_le_dec (4503599627370496 # 1) r) as [H | _]; [lra |].
  destruct (Qlt_le_dec r 0) as [H | _]; [lra |].
  assert (Hk53 : (Z.abs k < 2 ^ 53)%Z) by lia.
  assert (Hy1 : inject_Z k <= add r (1 # 2)).
  { apply round_ge; [by apply representable_Z | lra]. }
  assert (Hy2 : add r (1 # 2) <= inject_Z k + 1 - g).
  { apply round_le; [done | lra]. }
  rewrite (Qtruncate_floor _ k) by (lia || lra).
  by apply CAST_INTEGER_of_int.
Qed.

(** The same below zero. *)
Lemma ROUND_neg (r g : Q) (k : Z) :
  (- 2 ^ 52 < k <= 0)%Z -> 0 < g ->
  representable (inject_Z k - 1 + g) ->
  r < 0 -> inject_Z k - (1 # 2) + g <= r -> r <= inject_Z k + (1 # 2) ->
  CAST_INTEGER (ROUND r) = k.
Proof.
  intros Hk Hg Hrep H0 Hlo Hhi.
  assert (Hk' : - (4503599627370495 # 1) <= inject_Z k).
  { change (- (4503599627370495 # 1)) with (inject_Z (- 4503599627370495)).
    rewrite <- Zle_Qle. lia. }
  unfold ROUND.
  destruct (Qlt_le_dec r (- (4503599627370496 # 1))) as [H | _]; [lra |].
  destruct (Qlt_le_dec (4503599627370496 # 1) r) as [H | _]; [lra |].
  destruct (Qlt_le_dec r 0) as [_ | H]; [| lra].
  assert (Hk53 : (Z.abs k < 2 ^ 53)%Z) by lia.
  assert (Hy1 : inject_Z k - 1 + g <= add r (- (1 # 2))).
  { apply round_ge; [done | lra]. }
  assert (Hy2 : add r (- (1 # 2)) <= inject_Z k).
  { apply round_le; [by apply representable_Z | lra]. }
  rewrite (Qtruncate_ceiling _ k) by (lia || lra).
  by apply CAST_INTEGER_of_int.
Qed.


Ltac push_inject :=
  repeat (rewrite inject_Z_plus || rewrite inject_Z_mult || rewrite inject_Z_opp);
  change (inject_Z 1) with 1; change (inject_Z 2) with 2;
  change (inject_Z (- 1)) with (- 1).

(** The power of two [G] used as the margin: [2n <= G < 4n]. *)
Lemma margin_exists (n : Z) :
  (1 <= n)%Z ->
  exists j H : Z, (0 <= j)%Z /\ (2 ^ j = 2 * H)%Z /\ (n <= H < 2 * n)%Z.
Proof.
  intros Hn.
  destruct (Z.log2_up_spec (2 * n)) as [Hlo Hhi]; [lia |].
  pose proof (Z.log2_up_pos (2 * n)) as Hpos.
  exists (Z.log2_up (2 * n)), (2 ^ Z.pred (Z.log2_up (2 * n)))%Z.
  assert (Hpow : (2 ^ Z.log2_up (2 * n) = 2 * 2 ^ Z.pred (Z.log2_up (2 * n)))%Z).
  { rewrite <- Z.pow_succ_r by lia. f_equal. lia. }
  lia.
Qed.

(** The quotient of two integers that a double holds exactly, rounded to
    a double, rounded by [ROUND] and cast: the quotient rounded half away
    from zero. *)
Lemma round_quotient (S n M : Z) :
  (1 <= n)%Z -> (Z.abs S <= n * M)%Z -> (n * (M + 1) <= 2 ^ 51)%Z ->
  CAST_INTEGER (ROUND (round (inject_Z S / inject_Z n))) =
    round_half_away (inject_Z S / inject_Z n).
Proof.
  intros Hn HS Hbound.
  destruct (margin_exists n Hn) as (j & H & Hj & HG & HH).
  assert (Hnq : 1 <= inject_Z n).
  { change 1 with (inject_Z 1). by rewrite <- Zle_Qle. }
  assert (HHq : inject_Z n <= inject_Z H) by (rewrite <- Zle_Qle; lia).
  assert (HM : (0 <= M)%Z) by nia.
  change (2 ^ 51)%Z with 2251799813685248%Z in Hbound.
  assert (HM51 : (M + 1 <= 2251799813685248)%Z) by nia.
  assert (HHM : (H * (M + 1) < 4503599627370496)%Z) by nia.
  assert (HSlo : - (inject_Z n * inject_Z M) <= inject_Z S).
  { rewrite <- inject_Z_mult, <- inject_Z_opp, <- Zle_Qle. lia. }
  assert (HShi : inject_Z S <= inject_Z n * inject_Z M).
  { rewrite <- inject_Z_mult, <- Zle_Qle. lia. }
  assert (Hq : inject_Z S == inject_Z S / inject_Z n * inject_Z n)
    by (field; lra).
  assert (HGq : inject_Z (2 ^ j) == 2 * inject_Z H).
  { rewrite HG, inject_Z_mult. reflexivity. }
  set (q := inject_Z S / inject_Z n) in *.
  set (g := / inject_Z (2 ^ j)).
  assert (Hg : g * (2 * inject_Z H) == 1).
  { unfold g. rewrite HGq. field. lra. }
  assert (Hg0 : 0 < g).
  { unfold g. apply Qinv_lt_0_compat. lra. }
  assert (Hgn : g * (2 * inject_Z n) <= 1) by nra.
  assert (HqM : - inject_Z M <= q <= inject_Z M) by (split; nra).
  unfold round_half_away.
  destruct (Qlt_le_dec q 0) as [Hneg | Hpos].
  - pose proof (Qle_ceiling (q + - (1 # 2))) as Hc1.
    pose proof (Qceiling_lt (q + - (1 # 2))) as Hc2.
    rewrite Qtruncate_neg by lra.
    set (k := Qceiling (q + - (1 # 2))) in *.
    pose proof (inject_Z_pred k) as Hk1.
    rewrite Hk1 in Hc2.
    assert (Hk0 : (k <= 0)%Z).
    { assert (H1 : inject_Z k < inject_Z 1) by (change (inject_Z 1) with 1; lra).
      rewrite <- Zlt_Qlt in H1. lia. }
    assert (HkM : (- M <= k)%Z).
    { assert (H1 : inject_Z (- M - 1) < inject_Z k).
      { rewrite inject_Z_pred, inject_Z_opp. lra. }
      rewrite <- Zlt_Qlt in H1. lia. }
    assert (Hstep : 2 * inject_Z n * (inject_Z k - 1) + 1 <=
                    2 * inject_Z S - inject_Z n).
    { assert (H1 : 2 * inject_Z n * (inject_Z k - 1) < 2 * inject_Z S - inject_Z n)
        by nra.
      assert (H2 : (2 * n * (k - 1) < 2 * S - n)%Z).
      { rewrite Zlt_Qlt.
        replace (2 * S - n)%Z with (2 * S + - n)%Z by lia.
        replace (k - 1)%Z with (k + - 1)%Z by lia. push_inject. lra. }
      assert (H3 : (2 * n * (k + - 1) + 1 <= 2 * S + - n)%Z) by lia.
      rewrite Zle_Qle in H3. revert H3. push_inject. lra. }
    assert (HS1 : inject_Z S <= - 1).
    { assert (H1 : inject_Z S < inject_Z 0) by (change (inject_Z 0) with 0; nra).
      rewrite <- Zlt_Qlt in H1.
      change (- 1) with (inject_Z (- 1)). rewrite <- Zle_Qle. lia. }
    assert (Hlo : inject_Z k - (1 # 2) + g <= q) by nra.
    assert (Hneg' : q <= - g) by nra.
    apply (ROUND_neg _ g k).
    + change (2 ^ 52)%Z with 4503599627370496%Z. lia.
    + exact Hg0.
    + assert (Hrep : inject_Z k - 1 + g ==
                     inject_Z (2 ^ j * (k - 1) + 1) / inject_Z (2 ^ j)).
      { replace (k - 1)%Z with (k + - 1)%Z by lia. push_inject. unfold g.
        field. lra. }
      destruct (representable_dyadic (2 ^ j * (k - 1) + 1) j Hj) as (m & e & Hm & He).
      { change (2 ^ 53)%Z with 9007199254740992%Z. rewrite ?HG. nia. }
      exists m, e. split; [done |]. by rewrite Hrep.
    + apply Qle_lt_trans with (- g); [| lra].
      apply round_le; [| lra].
      destruct (representable_dyadic (- 1) j Hj) as (m & e & Hm & He); [lia |].
      exists m, e. split; [done |]. rewrite <- He. unfold g.
      change (inject_Z (- 1)) with (- 1). field. lra.
    + apply round_ge; [| exact Hlo].
      assert (Hrep : inject_Z k - (1 # 2) + g ==
                     inject_Z (H * (2 * k - 1) + 1) / inject_Z (2 ^ j)).
      { replace (2 * k - 1)%Z with (2 * k + - 1)%Z by lia.
        push_inject. unfold g. rewrite HGq. field. lra. }
      destruct (representable_dyadic (H * (2 * k - 1) + 1) j Hj) as (m & e & Hm & He).
      { change (2 ^ 53)%Z with 9007199254740992%Z. rewrite ?HG. nia. }
      exists m, e. split; [done |]. by rewrite Hrep.
    + apply round_le; [| lra].
      assert (Hrep : inject_Z k + (1 # 2) == inject_Z (2 * k + 1) * (1 # 2)).
      { push_inject. field. }
      destruct (representable_half (2 * k + 1)) as (m & e & Hm & He);
        [change (2 ^ 53)%Z with 9007199254740992%Z; lia |].
      exists m, e. split; [done |]. by rewrite Hrep.
  - pose proof (Qfloor_le (q + (1 # 2))) as Hf1.
    pose proof (Qlt_floor (q + (1 # 2))) as Hf2.
    rewrite inject_Z_succ in Hf2.
    rewrite Qtruncate_nonneg by lra.
    set (k := Qfloor (q + (1 # 2))) in *.
    assert (Hk0 : (0 <= k)%Z).
    { assert (H1 : inject_Z (- 1) < inject_Z k)
        by (change (inject_Z (- 1)) with (- 1); lra).
      rewrite <- Zlt_Qlt in H1. lia. }
    assert (HkM : (k <= M)%Z).
    { assert (H1 : inject_Z k < inject_Z (M + 1)) by (rewrite inject_Z_succ; lra).
      rewrite <- Zlt_Qlt in H1. lia. }
    assert (Hstep : 2 * inject_Z S + inject_Z n + 1 <=
                    2 * inject_Z n * (inject_Z k + 1)).
    { assert (H1 : 2 * inject_Z S + inject_Z n < 2 * inject_Z n * (inject_Z k + 1))
        by nra.
      assert (H2 : (2 * S + n < 2 * n * (k + 1))%Z).
      { rewrite Zlt_Qlt.
        push_inject. lra. }
      assert (H3 : (2 * S + n + 1 <= 2 * n * (k + 1))%Z) by lia.
      rewrite Zle_Qle in H3. revert H3. push_inject. lra. }
    assert (Hhi : q <= inject_Z k + (1 # 2) - g) by nra.
    apply (ROUND_nonneg _ g k).
    + change (2 ^ 52)%Z with 4503599627370496%Z. lia.
    + exact Hg0.
    + assert (Hrep : inject_Z k + 1 - g ==
                     inject_Z (2 ^ j * (k + 1) + - 1) / inject_Z (2 ^ j)).
      { push_inject. unfold g. field. lra. }
      destruct (representable_dyadic (2 ^ j * (k + 1) + - 1) j Hj)
        as (m & e & Hm & He).
      { change (2 ^ 53)%Z with 9007199254740992%Z. rewrite ?HG. nia. }
      exists m, e. split; [done |]. by rewrite Hrep.
    + apply round_ge; [| exact Hpos].
      exists 0%Z, 0%Z. split; [done | reflexivity].
    + apply round_ge; [| lra].
      assert (Hrep : inject_Z k - (1 # 2) == inject_Z (2 * k + - 1) * (1 # 2)).
      { push_inject. field. }
      destruct (representable_half (2 * k + - 1)) as (m & e & Hm & He);
        [change (2 ^ 53)%Z with 9007199254740992%Z; lia |].
      exists m, e. split; [done |]. by rewrite Hrep.
    + apply round_le; [| exact Hhi].
      assert (Hrep : inject_Z k + (1 # 2) - g ==
                     inject_Z (H * (2 * k + 1) + - 1) / inject_Z (2 ^ j)).
      { push_inject. unfold g. rewrite HGq. field. lra. }
      destruct (representable_dyadic (H * (2 * k + 1) + - 1) j Hj)
        as (m & e & Hm & He).
      { change (2 ^ 53)%Z with 9007199254740992%Z. rewrite ?HG. nia. }
      exists m, e. split; [done |]. by rewrite Hrep.
Qed.


Lemma sum_abs_bound (vs : list Z) (M : Z) :
  Forall (fun v => (Z.abs v <= M)%Z) vs ->
  (Z.abs (foldr Z.add 0%Z vs) <= Z.of_nat (length vs) * M)%Z.
Proof.
  induction 1 as [| v vs Hv _ IH]; [simpl; lia |].
  change (foldr Z.add 0%Z (v :: vs)) with (v + foldr Z.add 0%Z vs)%Z.
  change (length (v :: vs)) with (S (length vs)).
  rewrite Nat2Z.inj_succ. nia.
Qed.

(** While every partial sum is an integer below [2^53] the running sum
    of [AVG] is exact. *)
Lemma rSum_exact (vs : list Z) (M : Z) (acc : Q) (z : Z) :
  Forall (fun v => (Z.abs v <= M)%Z) vs ->
  acc == inject_Z z ->
  (Z.abs z + Z.of_nat (length vs) * M < 2 ^ 53)%Z ->
  foldl (fun rSum v => add rSum (of_int v)) acc vs ==
    inject_Z (z + foldr Z.add 0%Z vs).
Proof.
  intros Hvs. revert acc z.
  induction Hvs as [| v vs Hv _ IH]; intros acc z Hacc Hz.
  - simpl. by rewrite Z.add_0_r.
  - change (foldr Z.add 0%Z (v :: vs)) with (v + foldr Z.add 0%Z vs)%Z.
    change (length (v :: vs)) with (S (length vs)) in Hz.
    rewrite Nat2Z.inj_succ in Hz.
    rewrite Z.add_assoc. cbn [foldl]. apply IH; [| nia].
    assert (HM : (Z.abs v + Z.abs z < 2 ^ 53)%Z) by nia.
    assert (Hv53 : (Z.abs v < 2 ^ 53)%Z) by lia.
    assert (Hsum : acc + of_int v == inject_Z (z + v)).
    { rewrite Hacc, (of_int_exact v Hv53), inject_Z_plus. reflexivity. }
    unfold add. rewrite (round_comp _ _ Hsum).
    apply round_exact, representable_Z. lia.
Qed.

Lemma AVG_exact (vs : list Z) (M : Z) :
  vs <> [] ->
  Forall (fun v => (Z.abs v <= M)%Z) vs ->
  (Z.of_nat (length vs) * (M + 1) <= 2 ^ 51)%Z ->
  AVG vs = Some (round (mean vs)).
Proof.
  intros Hne Hvs Hbound.
  assert (Hn : (1 <= Z.of_nat (length vs))%Z) by (destruct vs; [done | simpl; lia]).
  assert (HM : (0 <= M)%Z).
  { destruct Hvs as [| v vs Hv _]; [done | lia]. }
  change (2 ^ 51)%Z with 2251799813685248%Z in Hbound.
  assert (Hsum : foldl (fun rSum v => add rSum (of_int v)) 0 vs ==
                 inject_Z (foldr Z.add 0%Z vs)).
  { apply (rSum_exact vs M 0 0%Z Hvs); [reflexivity |].
    change (2 ^ 53)%Z with 9007199254740992%Z. nia. }
  assert (Hlen : of_int (Z.of_nat (length vs)) == inject_Z (Z.of_nat (length vs))).
  { apply of_int_exact. change (2 ^ 53)%Z with 9007199254740992%Z. nia. }
  unfold AVG. destruct vs as [| v vs]; [done |].
  f_equal. unfold div, mean. apply round_comp.
  by rewrite Hsum, Hlen.
Qed.

(** The SQL expression of the recompute on member values that are small
    enough for every intermediate double to be exact: the mean rounded
    half away from zero. *)
Lemma CAST_ROUND_AVG (vs : list Z) (M : Z) :
  vs <> [] ->
  Forall (fun v => (Z.abs v <= M)%Z) vs ->
  (Z.of_nat (length vs) * (M + 1) <= 2 ^ 51)%Z ->
  CAST_INTEGER (ROUND (IFNULL (AVG vs) 0)) = round_half_away (mean vs).
Proof.
  intros Hne Hvs Hbound.
  rewrite (AVG_exact vs M) by done. unfold IFNULL, mean.
  apply (round_quotient _ _ M); [| by apply sum_abs_bound | done].
  destruct vs; [done | simpl; lia].
Qed.

End Binary64.

Import time wtf sqlite.

(** ** The tables under the statements *)

Section Statements.

Implicit Types (s : Store) (id value : Z) (t : Time).

Lemma filter_dial_nil s id :
  ~ dial_exists s id -> filter (fun d => ID d = id) (dials s) = [].
Proof.
  unfold dial_exists. generalize (dials s) as l.
  induction l as [| d l IH]; intros Hno; [reflexivity |].
  rewrite filter_cons. destruct (decide (ID d = id)) as [Heq | Hne].
  - exfalso. apply Hno. by apply Exists_cons_hd.
  - apply IH. intros Hex. apply Hno. by apply Exists_cons_tl.
Qed.

Lemma select_dial_value_absent s id :
  ~ dial_exists s id -> select_dial_value None s id = inl ErrNoRows.
Proof.
  intros Hno. unfold select_dial_value. by rewrite filter_dial_nil.
Qed.

Lemma select_dial_value_present s id :
  dial_exists s id -> exists old, select_dial_value None s id = inr old.
Proof.
  unfold dial_exists, select_dial_value. generalize (dials s) as l.
  induction l as [| d l IH]; intros Hex.
  - by apply Exists_nil in Hex.
  - rewrite filter_cons. destruct (decide (ID d = id)) as [Heq | Hne].
    + by exists (Value d).
    + apply IH. apply Exists_cons in Hex as [Hd | Hl]; [done | exact Hl].
Qed.

Lemma select_dial_value_found s id old :
  select_dial_value None s id = inr old -> dial_exists s id.
Proof.
  intros Hsel. destruct (decide (dial_exists s id)) as [Hex | Hno]; [done |].
  rewrite select_dial_value_absent in Hsel by done. discriminate.
Qed.

(** After the UPDATE the dial reads back the value written. *)
Lemma select_dial_value_update s id value t :
  dial_exists s id ->
  select_dial_value None (update_dial id value t s) id = inr value.
Proof.
  unfold dial_exists, select_dial_value, update_dial. simpl.
  generalize (dials s) as l.
  induction l as [| d l IH]; intros Hex.
  - by apply Exists_nil in Hex.
  - rewrite fmap_cons, filter_cons.
    destruct (decide (ID d = id)) as [Heq | Hne]; simpl.
    + by rewrite decide_True.
    + rewrite decide_False by done.
      apply IH. apply Exists_cons in Hex as [Hd | Hl]; [done | exact Hl].
Qed.

Lemma dial_exists_update s id id' value t :
  dial_exists (update_dial id value t s) id' <-> dial_exists s id'.
Proof.
  unfold dial_exists, update_dial. simpl.
  rewrite !Exists_exists. split.
  - intros (d' & Hin & Hid). apply list_elem_of_fmap in Hin as (d & -> & Hd).
    exists d. split; [done |]. by destruct (decide (ID d = id)).
  - intros (d & Hin & Hid).
    exists (if decide (ID d = id) then set_value value t d else d).
    split; [| by destruct (decide (ID d = id))].
    apply list_elem_of_fmap. by exists d.
Qed.

(** The aggregate reads [dial_memberships] only. *)
Lemma computed_value_memberships s s' id :
  dial_memberships s' = dial_memberships s ->
  computed_value s' id = computed_value s id.
Proof. unfold computed_value. by intros ->. Qed.

(** The UPDATE keeps every row in place and rewrites the value and the
    update time of the rows of [id] only. *)
Lemma update_dial_rows s id value t :
  Forall2 (fun d d' => d' = d \/ (ID d = id /\ d' = set_value value t d))
          (dials s) (dials (update_dial id value t s)).
Proof.
  unfold update_dial. simpl. generalize (dials s) as l.
  induction l as [| d l IH]; [constructor |].
  rewrite fmap_cons. constructor; [| exact IH].
  destruct (decide (ID d = id)); auto.
Qed.

Lemma update_dial_updated_at s id value t :
  Forall (fun d => ID d = id -> UpdatedAt d = t /\ Value d = value)
         (dials (update_dial id value t s)).
Proof.
  unfold update_dial. simpl. apply Forall_fmap, Forall_forall.
  intros d _. simpl. destruct (decide (ID d = id)) as [Heq | Hne]; simpl; done.
Qed.

Lemma overwrite_miss id t value (r : dial_value) :
  ~ conflicts id t r -> overwrite id t value r = r.
Proof. intros Hr. unfold overwrite. by rewrite decide_False. Qed.

Lemma overwrite_hit id t value (r : dial_value) :
  conflicts id t r -> overwrite id t value r = mkDialValue id t value.
Proof.
  intros Hr. unfold overwrite. rewrite decide_True by done.
  destruct Hr as [Hid Ht]. by rewrite Hid, Ht.
Qed.

(** The upsert leaves the samples of other dials alone. *)
Lemma upsert_other_dials id t value (rows : list dial_value) :
  filter (fun r => dv_dial_id r <> id) (upsert_dial_value id t value rows) =
  filter (fun r => dv_dial_id r <> id) rows.
Proof.
  unfold upsert_dial_value.
  destruct (decide (Exists (conflicts id t) rows)) as [_ | _].
  - induction rows as [| r rows IH]; [reflexivity |].
    rewrite fmap_cons, !filter_cons, IH.
    destruct (decide (conflicts id t r)) as [Hr | Hr].
    + rewrite overwrite_hit by done. destruct Hr as [Hid Ht]. simpl.
      rewrite !decide_False; [done | |]; intros Hne; by apply Hne.
    + by rewrite overwrite_miss.
  - rewrite filter_app, filter_cons, filter_nil. simpl.
    rewrite decide_False by (intros Hne; by apply Hne).
    by rewrite app_nil_r.
Qed.

(** The upsert leaves a sample with the key and the value given. *)
Lemma upsert_stored id t value (rows : list dial_value) :
  mkDialValue id t value ∈ upsert_dial_value id t value rows.
Proof.
  unfold upsert_dial_value.
  destruct (decide (Exists (conflicts id t) rows)) as [Hex | Hno].
  - apply Exists_exists in Hex as (r & Hin & Hr).
    apply list_elem_of_fmap. exists r. split; [| exact Hin].
    by rewrite overwrite_hit.
  - apply elem_of_app. right. by apply list_elem_of_singleton.
Qed.

(** [Truncate(1 * time.Minute)] is the minute boundary at or before the
    instant. *)
Lemma Truncate_Minute t :
  Truncate t (1 * Minute) `mod` Minute = 0 /\
  Truncate t (1 * Minute) <= t < Truncate t (1 * Minute) + Minute.
Proof.
  unfold Truncate. rewrite decide_False by (unfold Minute, Second, Nanosecond; lia).
  rewrite Z.mul_1_l.
  assert (Hpos : 0 < Minute) by (unfold Minute, Second, Nanosecond; lia).
  pose proof (Z.mod_pos_bound t Minute Hpos) as Hbound.
  split; [| lia].
  rewrite Zminus_mod, Zmod_mod, Z.sub_diag. by apply Z.mod_0_l, Z.neq_sym, Z.lt_neq.
Qed.

End Statements.

(** ** Runs of the pipeline *)

Section Recompute.

Context {ES : Type} `{!EventService ES}.
Variable FormatError : error -> option error.

(** [FormatError] does not turn an error into nil. *)
Hypothesis FormatError_keeps : forall err, FormatError err <> None.

Implicit Types (fl : Faults) (tx : Tx ES) (id : Z) (event : Event).

Lemma publish_rows_success fl event rows : forall k es,
  fst (publish_rows fl k rows event es) = None ->
  snd (publish_rows fl k rows event es) = published event rows es.
Proof.
  induction rows as [| u rows IH]; intros k es; simpl.
  - by destruct (next_fails fl k).
  - destruct (next_fails fl k); [done |].
    destruct (scan_fails fl k); [done |].
    apply IH.
Qed.


(** What a run that returns nil has done. *)
Lemma refreshDialValue_success fl tx id :
  fst (refreshDialValue FormatError fl tx id) = None ->
  (~ dial_exists (store tx) id /\
   snd (refreshDialValue FormatError fl tx id) = tx) \/
  (exists old, select_dial_value None (store tx) id = inr old /\
     ((old = computed_value (store tx) id /\
       snd (refreshDialValue FormatError fl tx id) = tx) \/
      (old <> computed_value (store tx) id /\
       snd (refreshDialValue FormatError fl tx id) =
       mkTx (refreshed id (computed_value (store tx) id) (now tx) (store tx))
            (now tx)
            (published (value_changed id (computed_value (store tx) id))
                       (select_members (store tx) id) (db_EventService tx))))).
Proof.
  unfold refreshDialValue, insertDialValue, publishDialEvent.
  destruct (select_value_fails fl) as [text |] eqn:Hload.
  { simpl. intros Hnil. by apply FormatError_keeps in Hnil. }
  destruct (decide (dial_exists (store tx) id)) as [Hex | Hno].
  2:{ rewrite select_dial_value_absent by done. intros _. by left. }
  destruct (select_dial_value_present _ _ Hex) as [old Hold].
  rewrite Hold. intros Hnil. right. exists old. split; [done |]. revert Hnil.
  unfold select_avg_value.
  destruct (select_avg_fails fl) as [text |].
  { simpl. intros Hnil. by apply FormatError_keeps in Hnil. }
  destruct (decide (old = computed_value (store tx) id)) as [Heq | Hne].
  { intros _. by left. }
  destruct (update_fails fl) as [text |].
  { simpl. intros Hnil. by apply FormatError_keeps in Hnil. }
  destruct (insert_fails fl) as [text |].
  { simpl. destruct (FormatError (DriverError text)) eqn:Hfe; [done |].
    by apply FormatError_keeps in Hfe. }
  destruct (select_members_fails fl) as [text |].
  { simpl. destruct (FormatError (DriverError text)) eqn:Hfe; [done |].
    by apply FormatError_keeps in Hfe. }
  simpl.
  pose proof (publish_rows_success fl
    (value_changed id (computed_value (store tx) id))
    (select_members (store tx) id) 0 (db_EventService tx)) as Hpub.
  unfold value_changed in *.
  destruct (publish_rows _ _ _ _ _) as [[err |] es]; simpl in *; [done |].
  intros _. right. split; [done |]. by rewrite Hpub.
Qed.

(** A run stops before any write when the dial is missing or already
    holds the computed value, whatever fails. *)
Lemma refreshDialValue_absent fl tx id :
  ~ dial_exists (store tx) id ->
  snd (refreshDialValue FormatError fl tx id) = tx.
Proof.
  intros Hno. unfold refreshDialValue.
  destruct (select_value_fails fl) as [text |]; [done |].
  by rewrite select_dial_value_absent.
Qed.

Lemma refreshDialValue_unchanged fl tx id :
  select_dial_value None (store tx) id = inr (computed_value (store tx) id) ->
  snd (refreshDialValue FormatError fl tx id) = tx.
Proof.
  intros Hold. unfold refreshDialValue, select_avg_value.
  destruct (select_value_fails fl) as [text |]; [done |].
  rewrite Hold.
  destruct (select_avg_fails fl) as [text |]; [done |].
  by rewrite decide_True.
Qed.

(** The tables a run can leave behind: untouched, updated only (the
    upsert failed), or updated and upserted. *)
Lemma refreshDialValue_store fl tx id :
  let tx' := snd (refreshDialValue FormatError fl tx id) in
  now tx' = now tx /\
  (store tx' = store tx \/
   store tx' = update_dial id (computed_value (store tx) id) (now tx) (store tx) \/
   store tx' = refreshed id (computed_value (store tx) id) (now tx) (store tx)).
Proof.
  unfold refreshDialValue, insertDialValue, publishDialEvent, select_avg_value.
  destruct (select_dial_value _ _ _) as [[| | |] | old]; simpl; auto.
  destruct (select_avg_fails fl) as [text |]; simpl; auto.
  destruct (decide _); simpl; auto.
  destruct (update_fails fl) as [text |]; simpl; auto.
  destruct (insert_fails fl) as [text |]; simpl.
  { destruct (FormatError _); simpl; auto.
    destruct (select_members_fails fl); simpl.
    - destruct (FormatError _); simpl; auto.
    - destruct (publish_rows _ _ _ _ _) as [[err |] es]; simpl; auto. }
  destruct (select_members_fails fl); simpl.
  - destruct (FormatError _); simpl; auto.
  - destruct (publish_rows _ _ _ _ _) as [[err |] es]; simpl; auto.
Qed.

(** C3: when no dial row carries the identifier, the recompute leaves the
    transaction exactly as it found it (no dial write, no history sample,
    no event) and, the lookup itself having run, returns nil. *)
Theorem refreshDialValue_missing_dial fl tx id :
  ~ dial_exists (store tx) id ->
  snd (refreshDialValue FormatError fl tx id) = tx /\
  (select_value_fails fl = None ->
   refreshDialValue FormatError fl tx id = (None, tx)).
Proof.
  intros Hno. split; [by apply refreshDialValue_absent |].
  intros Hload. unfold refreshDialValue. rewrite Hload.
  by rewrite select_dial_value_absent.
Qed.

(** C2: a recompute that finds the stored value equal to the computed one
    writes nothing, records nothing and publishes nothing (the transaction
    is returned unchanged), and returns nil when its two reads run; and
    after a recompute that returned nil, a second recompute of the same
    dial leaves the transaction unchanged, whatever fails in it. *)
Theorem refreshDialValue_idempotent fl fl' tx id :
  (select_dial_value None (store tx) id = inr (computed_value (store tx) id) ->
   snd (refreshDialValue FormatError fl tx id) = tx /\
   (select_value_fails fl = None -> select_avg_fails fl = None ->
    fst (refreshDialValue FormatError fl tx id) = None)) /\
  (fst (refreshDialValue FormatError fl tx id) = None ->
   snd (refreshDialValue FormatError fl'
          (snd (refreshDialValue FormatError fl tx id)) id) =
   snd (refreshDialValue FormatError fl tx id)).
Proof.
  split.
  - intros Hold. split; [by apply refreshDialValue_unchanged |].
    intros Hload Havg. unfold refreshDialValue, select_avg_value.
    rewrite Hload, Hold, Havg. by rewrite decide_True.
  - intros Hnil.
    destruct (refreshDialValue_success fl tx id Hnil)
      as [[Hno ->] | (old & Hold & [[Heq ->] | [Hne ->]])].
    + by apply refreshDialValue_absent.
    + apply refreshDialValue_unchanged. by rewrite Hold, Heq.
    + apply refreshDialValue_unchanged. simpl.
      apply select_dial_value_found in Hold.
      rewrite (computed_value_memberships (store tx) (refreshed _ _ _ _))
        by done.
      by apply (select_dial_value_update (store tx)).
Qed.

(** C9: no operation of the pipeline writes [dial_memberships]; the
    recompute keeps every dial row in place, changing at most the value
    and update time of the rows of its own dial, and keeps the history
    samples of every other dial. *)
Theorem pipeline_frame fl tx id value t event :
  dial_memberships (store (snd (refreshDialValue FormatError fl tx id))) =
    dial_memberships (store tx) /\
  dial_memberships (store (snd (insertDialValue FormatError fl tx id value t))) =
    dial_memberships (store tx) /\
  dials (store (snd (insertDialValue FormatError fl tx id value t))) =
    dials (store tx) /\
  store (snd (publishDialEvent FormatError fl tx id event)) = store tx /\
  Forall2 (fun d d' => d' = d \/
             (ID d = id /\
              d' = set_value (computed_value (store tx) id) (now tx) d))
          (dials (store tx))
          (dials (store (snd (refreshDialValue FormatError fl tx id)))) /\
  filter (fun r => dv_dial_id r <> id)
         (dial_values (store (snd (refreshDialValue FormatError fl tx id)))) =
    filter (fun r => dv_dial_id r <> id) (dial_values (store tx)).
Proof.
  assert (Hins : forall v t',
    store (snd (insertDialValue FormatError fl tx id v t')) = store tx \/
    store (snd (insertDialValue FormatError fl tx id v t')) =
      insert_dial_value id (Truncate t' (1 * Minute)) v (store tx)).
  { intros v t'. unfold insertDialValue.
    destruct (insert_fails fl); simpl; auto. }
  assert (Hpub : store (snd (publishDialEvent FormatError fl tx id event)) = store tx).
  { unfold publishDialEvent. destruct (select_members_fails fl); [done |].
    by destruct (publish_rows _ _ _ _ _). }
  destruct (refreshDialValue_store fl tx id) as [_ Hstore]. simpl in Hstore.
  repeat split.
  - by destruct Hstore as [-> | [-> | ->]].
  - by destruct (Hins value t) as [-> | ->].
  - by destruct (Hins value t) as [-> | ->].
  - exact Hpub.
  - destruct Hstore as [-> | [-> | ->]].
    + apply Forall2_same_length_lookup_2; [done |].
      intros i d d' Hd Hd'. left. congruence.
    + apply update_dial_rows.
    + apply (update_dial_rows (store tx)).
  - destruct Hstore as [-> | [-> | ->]]; [done | done |].
    apply upsert_other_dials.
Qed.

(** C7: when a storage call of the load, recompute, update or history
    step fails in the driver with [text], the recompute returns that
    failure: [FormatError (DriverError text)] from the load, recompute
    and update steps, with the transaction as it was, and the same error
    wrapped as "insert historical value" from the history step, with the
    UPDATE of the dial row pending in the transaction.  In each case the
    history samples in the transaction are those it started with and
    nothing has been published.  The caller's scope, which rolls back on
    an error, hands that error on and leaves the committed tables (dial
    value and history samples) as they were. *)
Theorem refreshDialValue_atomic fl (s : Store) (t : Time) (es : ES) id :
  storage_failure fl s id ->
  exists text err,
    FormatError (DriverError text) = Some err /\
    (((select_value_fails fl = Some text \/
       (select_value_fails fl = None /\ select_avg_fails fl = Some text) \/
       (select_value_fails fl = None /\ select_avg_fails fl = None /\
        update_fails fl = Some text)) /\
      refreshDialValue FormatError fl (mkTx s t es) id = (Some err, mkTx s t es)) \/
     (select_value_fails fl = None /\ select_avg_fails fl = None /\
      update_fails fl = None /\ insert_fails fl = Some text /\
      refreshDialValue FormatError fl (mkTx s t es) id =
        (Some (Errorf "insert historical value" err),
         mkTx (update_dial id (computed_value s id) t s) t es))) /\
    dial_values (store (snd (refreshDialValue FormatError fl (mkTx s t es) id))) =
      dial_values s /\
    db_EventService (snd (refreshDialValue FormatError fl (mkTx s t es) id)) = es /\
    in_transaction (fun tx => refreshDialValue FormatError fl tx id) s t es =
      (fst (refreshDialValue FormatError fl (mkTx s t es) id), s, es).
Proof.
  assert (Hkeep : forall e, exists err, FormatError e = Some err).
  { intros e. destruct (FormatError e) eqn:Hfe; [by eexists |].
    by apply FormatError_keeps in Hfe. }
  unfold in_transaction, refreshDialValue, insertDialValue, select_avg_value.
  cbn [store now db_EventService].
  intros [[text Hload] | (Hload & old & Hold & Hrest)]; rewrite Hload.
  { simpl. destruct (Hkeep (DriverError text)) as [err Herr]. rewrite Herr.
    exists text, err. split; [done |]. split; [| done]. left. split; [naive_solver | done]. }
  rewrite Hold.
  destruct Hrest as [[text Havg] | (Havg & Hne & Hrest)]; rewrite Havg; simpl.
  { destruct (Hkeep (DriverError text)) as [err Herr]. rewrite Herr.
    exists text, err. split; [done |]. split; [| done]. left. split; [naive_solver | done]. }
  rewrite decide_False by done.
  destruct Hrest as [[text Hupd] | (Hupd & [text Hins])]; rewrite Hupd; simpl.
  { destruct (Hkeep (DriverError text)) as [err Herr]. rewrite Herr.
    exists text, err. split; [done |]. split; [| done]. left. split; [naive_solver | done]. }
  rewrite Hins. destruct (Hkeep (DriverError text)) as [err Herr]. rewrite Herr.
  simpl. exists text, err. split; [done |]. split; [| done]. right. naive_solver.
Qed.

(** C8, as the code has it: one timestamp, [now tx], serves both writes
    of a value-changing recompute and is never replaced.  Every row of the
    dial gets it as update time; the history sample is stored under that
    same timestamp truncated to its minute, so the dial-row timestamp lies
    in the minute that starts at the sample's timestamp. *)
Theorem refreshDialValue_one_timestamp fl tx id old :
  select_dial_value None (store tx) id = inr old ->
  old <> computed_value (store tx) id ->
  fst (refreshDialValue FormatError fl tx id) = None ->
  let tx' := snd (refreshDialValue FormatError fl tx id) in
  now tx' = now tx /\
  Forall (fun d => ID d = id -> UpdatedAt d = now tx) (dials (store tx')) /\
  mkDialValue id (Truncate (now tx) (1 * Minute)) (computed_value (store tx) id)
    ∈ dial_values (store tx') /\
  Truncate (now tx) (1 * Minute) `mod` Minute = 0 /\
  Truncate (now tx) (1 * Minute) <= now tx < Truncate (now tx) (1 * Minute) + Minute.
Proof.
  intros Hold Hne Hnil.
  destruct (refreshDialValue_success fl tx id Hnil)
    as [[Hno _] | (old' & Hold' & [[Heq _] | [_ ->]])].
  - exfalso. apply Hno. by eapply select_dial_value_found.
  - congruence.
  - simpl. split; [done |]. split.
    + eapply Forall_impl; [apply (update_dial_updated_at (store tx)) |].
      intros d Hd Hid. by apply Hd.
    + split; [apply upsert_stored | apply Truncate_Minute].
Qed.

(** C1, as the query computes it: the value the recompute computes is 0
    for a dial without memberships.  For a dial with [n] memberships whose
    values lie within [-M, M], where [n * (M + 1) <= 2^51], every double
    of the query is exact but the quotient, and the value is the integer
    nearest to the mean of the members' values, a tie going away from
    zero (no other integer fits).  A recompute of an existing dial that
    returns nil leaves the computed value stored in the dial row. *)
Theorem refreshDialValue_mean fl tx id M :
  let values :=
    dm_value <$> filter (fun m => dm_dial_id m = id) (dial_memberships (store tx)) in
  let newValue := computed_value (store tx) id in
  Forall (fun v => Z.abs v <= M) values ->
  Z.of_nat (length values) * (M + 1) <= 2 ^ 51 ->
  select_avg_value None (store tx) id = inr newValue /\
  match values with
  | [] => newValue = 0
  | _ =>
      newValue = round_half_away (mean values) /\
      nearest_ties_away (mean values) newValue /\
      forall n, nearest_ties_away (mean values) n -> n = newValue
  end /\
  (dial_exists (store tx) id ->
   fst (refreshDialValue FormatError fl tx id) = None ->
   select_dial_value None (store (snd (refreshDialValue FormatError fl tx id))) id =
     inr newValue).
Proof.
  cbv zeta. intros Hvs Hbound. split; [reflexivity |]. split.
  - assert (Hcv : computed_value (store tx) id =
                  sql.CAST_INTEGER (sql.ROUND (sql.IFNULL (sql.AVG
                    (dm_value <$> filter (fun m => dm_dial_id m = id)
                                         (dial_memberships (store tx)))) 0%Q)))
      by reflexivity.
    destruct (dm_value <$> filter _ (dial_memberships (store tx)))
      as [| v values] eqn:Hvalues; [by rewrite Hcv |].
    rewrite (CAST_ROUND_AVG (v :: values) M) in Hcv by done.
    rewrite Hcv. split; [done |]. split; [apply round_half_away_nearest |].
    intros n Hn. eapply nearest_ties_away_unique; [exact Hn |].
    apply round_half_away_nearest.
  - intros Hex Hnil.
    destruct (refreshDialValue_success fl tx id Hnil)
      as [[Hno _] | (old & Hold & [[Heq ->] | [_ ->]])]; [done | |].
    + by rewrite Hold, Heq.
    + by apply (select_dial_value_update (store tx)).
Qed.

End Recompute.

(** ** The history table *)

Section History.

Context {ES : Type} `{!EventService ES}.
Variable FormatError : error -> option error.

Implicit Types (rows : list dial_value) (id value : Z) (t : Time).

Lemma overwrite_key id t value r : key (overwrite id t value r) = key r.
Proof. unfold overwrite. by destruct (decide (conflicts id t r)). Qed.

Lemma conflicts_key id t r : conflicts id t r <-> key r = (id, t).
Proof.
  unfold conflicts, key. split.
  - intros [Hid Ht]. by rewrite Hid, Ht.
  - intros Heq. by inversion Heq.
Qed.

Lemma filter_no_conflict id t value rows :
  ~ Exists (conflicts id t) rows ->
  filter (conflicts id t) (overwrite id t value <$> rows) = [].
Proof.
  induction rows as [| r rows IH]; intros Hno; [reflexivity |].
  rewrite fmap_cons, filter_cons.
  assert (Hr : ~ conflicts id t r) by (intros Hr; apply Hno; by apply Exists_cons_hd).
  rewrite overwrite_miss, decide_False by done.
  apply IH. intros Hex. apply Hno. by apply Exists_cons_tl.
Qed.

Lemma filter_conflict id t value rows :
  unique_samples rows ->
  Exists (conflicts id t) rows ->
  filter (conflicts id t) (overwrite id t value <$> rows) = [mkDialValue id t value].
Proof.
  unfold unique_samples.
  induction rows as [| r rows IH]; intros Huniq Hex.
  - by apply Exists_nil in Hex.
  - rewrite fmap_cons in Huniq. apply NoDup_cons in Huniq as [Hfresh Huniq].
    rewrite fmap_cons, filter_cons.
    destruct (decide (conflicts id t r)) as [Hr | Hr].
    + rewrite overwrite_hit, decide_True by done.
      rewrite filter_no_conflict; [done |].
      intros Hex'. apply Exists_exists in Hex' as (r' & Hin & Hr').
      apply Hfresh. apply list_elem_of_fmap. exists r'. split; [| done].
      apply conflicts_key in Hr'. rewrite Hr'. by apply conflicts_key.
    + rewrite overwrite_miss, decide_False by done.
      apply IH; [done |].
      apply Exists_cons in Hex as [Hhd | Htl]; [done | exact Htl].
Qed.

(** The upsert keeps the uniqueness constraint. *)
Lemma upsert_unique id t value rows :
  unique_samples rows -> unique_samples (upsert_dial_value id t value rows).
Proof.
  unfold unique_samples, upsert_dial_value. intros Huniq.
  destruct (decide (Exists (conflicts id t) rows)) as [Hex | Hno].
  - rewrite <- list_fmap_compose.
    erewrite list_fmap_ext; [exact Huniq |].
    intros i r _. apply overwrite_key.
  - rewrite fmap_app. apply NoDup_app. split; [done |]. split.
    + intros k Hk Hk'. apply list_elem_of_singleton in Hk'. subst k.
      apply list_elem_of_fmap in Hk as (r & Hkey & Hin).
      apply Hno. apply Exists_exists. exists r. split; [done |].
      by apply conflicts_key.
    + apply NoDup_singleton.
Qed.

(** After the upsert the key holds one sample, with the value given. *)
Lemma upsert_bucket id t value rows :
  unique_samples rows ->
  filter (conflicts id t) (upsert_dial_value id t value rows) =
    [mkDialValue id t value].
Proof.
  intros Huniq. unfold upsert_dial_value.
  destruct (decide (Exists (conflicts id t) rows)) as [Hex | Hno].
  - by apply filter_conflict.
  - rewrite filter_app, filter_cons, filter_nil.
    rewrite decide_True by done.
    replace (filter (conflicts id t) rows) with (@nil dial_value); [done |].
    symmetry. clear Huniq. induction rows as [| r rows IH]; [done |].
    rewrite filter_cons, decide_False; [apply IH |].
    + intros Hex. apply Hno. by apply Exists_cons_tl.
    + intros Hr. apply Hno. by apply Exists_cons_hd.
Qed.

(** C4: [insertDialValue] stores under the minute boundary at or before
    the timestamp given and keeps the table free of duplicate
    (dial, timestamp) keys; two recordings for the same dial whose
    timestamps fall in the same minute leave exactly one sample for that
    minute, holding the value of the second. *)
Theorem insertDialValue_one_sample_per_minute
    (fl fl' : Faults) (tx : Tx ES) id value value' t t' :
  unique_samples (dial_values (store tx)) ->
  insert_fails fl = None ->
  insert_fails fl' = None ->
  Truncate t (1 * Minute) = Truncate t' (1 * Minute) ->
  let bucket := Truncate t' (1 * Minute) in
  let tx1 := snd (insertDialValue FormatError fl tx id value t) in
  let tx2 := snd (insertDialValue FormatError fl' tx1 id value' t') in
  (bucket `mod` Minute = 0 /\ bucket <= t' < bucket + Minute) /\
  filter (conflicts id bucket) (dial_values (store tx1)) =
    [mkDialValue id bucket value] /\
  filter (conflicts id bucket) (dial_values (store tx2)) =
    [mkDialValue id bucket value'] /\
  unique_samples (dial_values (store tx1)) /\
  unique_samples (dial_values (store tx2)).
Proof.
  intros Huniq Hfl Hfl' Hsame. cbv zeta. unfold insertDialValue.
  rewrite Hfl, Hfl', Hsame. simpl.
  pose proof (upsert_unique id (Truncate t' (1 * Minute)) value _ Huniq) as Huniq1.
  split; [apply Truncate_Minute |].
  split; [by apply upsert_bucket |].
  split; [by apply upsert_bucket |].
  split; [done | by apply upsert_unique].
Qed.

End History.

(** ** Notification *)

Section FanOut.

Variable FormatError : error -> option error.
Hypothesis FormatError_keeps : forall err, FormatError err <> None.

Lemma published_recorder event users : forall log : list (Z * Event),
  published event users log = log ++ ((fun userID => (userID, event)) <$> users).
Proof.
  unfold published.
  induction users as [| u users IH]; intros log; simpl.
  - by rewrite app_nil_r.
  - rewrite IH. unfold PublishEvent, recorder. by rewrite <- app_assoc.
Qed.

(** C5: with the calls to the event service recorded, a recompute of an
    existing dial that returns nil has published, after what was
    published before, nothing when the value did not change, and
    otherwise one value-changed event per membership row of the dial and
    nothing else, each addressed to the row's user and carrying the dial
    identifier and the new value. *)
Theorem refreshDialValue_fan_out fl (tx : Tx (list (Z * Event))) id old :
  select_dial_value None (store tx) id = inr old ->
  fst (refreshDialValue FormatError fl tx id) = None ->
  let newValue := computed_value (store tx) id in
  db_EventService (snd (refreshDialValue FormatError fl tx id)) =
    db_EventService tx ++
    (if decide (old = newValue) then []
     else (fun m => (dm_user_id m,
                     mkEvent EventTypeDialValueChanged
                             (DialValueChangedPayload id newValue)))
            <$> filter (fun m => dm_dial_id m = id) (dial_memberships (store tx))).
Proof.
  intros Hold Hnil. cbv zeta.
  destruct (refreshDialValue_success FormatError FormatError_keeps fl tx id Hnil)
    as [[Hno _] | (old' & Hold' & [[Heq ->] | [Hne ->]])].
  - exfalso. apply Hno. by eapply select_dial_value_found.
  - rewrite decide_True by congruence. by rewrite app_nil_r.
  - rewrite decide_False by congruence.
    simpl. rewrite published_recorder. unfold select_members.
    by rewrite <- list_fmap_compose.
Qed.

End FanOut.

Section Delivery.

Context {ES1 ES2 : Type} (P1 : EventService ES1) (P2 : EventService ES2).
Variable FormatError : error -> option error.



End Delivery.

(** ** Error codes and status codes *)

Section CodeTable.

Import http.

Variables ECONFLICT EINVALID ENOTFOUND ENOTIMPLEMENTED EUNAUTHORIZED EINTERNAL
  : string.

(** The six constants are different strings (Go rejects a map literal
    that repeats a constant key). *)
Hypothesis codes_distinct :
  NoDup [ECONFLICT; EINVALID; ENOTFOUND; ENOTIMPLEMENTED; EUNAUTHORIZED; EINTERNAL].

Lemma statuses_distinct : NoDup
    ((codes_literal ECONFLICT EINVALID ENOTFOUND ENOTIMPLEMENTED EUNAUTHORIZED EINTERNAL).*2).
Proof.
  apply (bool_decide_unpack _). vm_compute. exact I.
Qed.

(** The loop returns the key of the one entry that carries the status. *)
Lemma from_status_entry (order : list (string * Z)) k v :
  NoDup (order.*2) -> (k, v) ∈ order -> FromErrorStatusCode EINTERNAL order v = k.
Proof.
  induction order as [| [k' v'] order IH]; intros Hnd Hin.
  - by apply elem_of_nil in Hin.
  - rewrite fmap_cons in Hnd. apply NoDup_cons in Hnd as [Hfresh Hnd]. simpl in *.
    apply elem_of_cons in Hin as [Heq | Hin].
    + inversion Heq; subst. by rewrite decide_True.
    + rewrite decide_False; [by apply IH |].
      intros ->. apply Hfresh. apply list_elem_of_fmap. by exists (k, v).
Qed.

Lemma range_order_literal (order : list (string * Z)) :
  range_order ECONFLICT EINVALID ENOTFOUND ENOTIMPLEMENTED EUNAUTHORIZED EINTERNAL
    order ->
  order ≡ₚ codes_literal ECONFLICT EINVALID ENOTFOUND ENOTIMPLEMENTED EUNAUTHORIZED EINTERNAL.
Proof.
  unfold range_order, codes. intros ->. by apply map_to_list_to_map.
Qed.

(** C10: whatever order the [range] over the table takes, a code of the
    table comes back from its status code, and a code outside the table
    is given status 500, which comes back as EINTERNAL. *)
Theorem error_code_round_trip (order : list (string * Z)) (code other : string) :
  range_order ECONFLICT EINVALID ENOTFOUND ENOTIMPLEMENTED EUNAUTHORIZED EINTERNAL
    order ->
  code ∈ [ECONFLICT; EINVALID; ENOTFOUND; ENOTIMPLEMENTED; EUNAUTHORIZED; EINTERNAL] ->
  other ∉ [ECONFLICT; EINVALID; ENOTFOUND; ENOTIMPLEMENTED; EUNAUTHORIZED; EINTERNAL] ->
  FromErrorStatusCode EINTERNAL order
    (ErrorStatusCode ECONFLICT EINVALID ENOTFOUND ENOTIMPLEMENTED EUNAUTHORIZED EINTERNAL code) = code /\
  ErrorStatusCode ECONFLICT EINVALID ENOTFOUND ENOTIMPLEMENTED EUNAUTHORIZED EINTERNAL other =
    StatusInternalServerError /\
  FromErrorStatusCode EINTERNAL order StatusInternalServerError = EINTERNAL.
Proof.
  intros Horder Hin Hout. apply range_order_literal in Horder.
  assert (Hnd : NoDup (order.*2)) by (rewrite Horder; apply statuses_distinct).
  assert (Hkeys : (codes_literal ECONFLICT EINVALID ENOTFOUND ENOTIMPLEMENTED EUNAUTHORIZED EINTERNAL).*1 =
    [ECONFLICT; EINVALID; ENOTFOUND; ENOTIMPLEMENTED; EUNAUTHORIZED; EINTERNAL])
    by reflexivity.
  rewrite <- Hkeys in Hin, Hout.
  split; [| split].
  - apply list_elem_of_fmap in Hin as ([k v] & -> & Hin). simpl.
    assert (Hlook : codes ECONFLICT EINVALID ENOTFOUND ENOTIMPLEMENTED EUNAUTHORIZED EINTERNAL !! k = Some v).
    { unfold codes. apply elem_of_list_to_map; [by rewrite Hkeys | done]. }
    unfold ErrorStatusCode. rewrite Hlook.
    apply from_status_entry; [done | by rewrite Horder].
  - unfold ErrorStatusCode, codes.
    by rewrite (not_elem_of_list_to_map_1 _ _ Hout).
  - apply from_status_entry; [done |]. rewrite Horder.
    unfold codes_literal. rewrite !elem_of_cons. auto 10.
Qed.

End CodeTable.

(** ** Closed instances *)

Section Instances.

Import example.

Lemma keep_error_keeps : forall err, keep_error err <> None.
Proof. intros err. discriminate. Qed.

(** The whole recompute of dial 1 at 00:01:01: value 2, one sample at
    00:01:00, one event for each of the two members. *)
Example refreshDialValue_tx0 :
  refreshDialValue keep_error no_faults tx0 1 =
    (None,
     mkTx (mkStore [mkDial 1 7 "wtf" 2 "invite" 0 (61 * Second)]
                   (dial_memberships s0)
                   [mkDialValue 1 (60 * Second) 2])
          t0
          [(7, value_changed 1 2); (8, value_changed 1 2)]).
Proof. vm_compute. reflexivity. Qed.

(** The aggregates of the member values {10, 20, 30}, {1, 2}, {-1, -2}
    and of no member at all. *)
Example computed_value_10_20_30 :
  computed_value
    (mkStore [] [mkMembership 1 1 10; mkMembership 1 2 20; mkMembership 1 3 30] []) 1
  = 20.
Proof. vm_compute. reflexivity. Qed.

Example computed_value_1_2 :
  computed_value (mkStore [] [mkMembership 1 1 1; mkMembership 1 2 2] []) 1 = 2.
Proof. vm_compute. reflexivity. Qed.

Example computed_value_neg :
  computed_value (mkStore [] [mkMembership 1 1 (-1); mkMembership 1 2 (-2)] []) 1
  = -2.
Proof. vm_compute. reflexivity. Qed.

Example computed_value_none : computed_value (mkStore [] [] []) 1 = 0.
Proof. vm_compute. reflexivity. Qed.

(** Members saying 1 and 2: the mean 3/2 is stored as 2. *)
Lemma refreshDialValue_mean_witness :
  Forall (fun v => Z.abs v <= 2) [1; 2] /\
  Z.of_nat (length [1; 2]) * (2 + 1) <= 2 ^ 51 /\
  dial_exists (store tx0) 1 /\
  fst (refreshDialValue keep_error no_faults tx0 1) = None /\
  computed_value (store tx0) 1 = round_half_away (mean [1; 2]) /\
  nearest_ties_away (mean [1; 2]) 2 /\
  select_dial_value None
    (store (snd (refreshDialValue keep_error no_faults tx0 1))) 1 = inr 2.
Proof.
  assert (Hvs : Forall (fun v => Z.abs v <= 2) [1; 2])
    by (repeat constructor; simpl; lia).
  assert (Hbound : Z.of_nat (length [1; 2]) * (2 + 1) <= 2 ^ 51)
    by (vm_compute; discriminate).
  assert (Hex : dial_exists (store tx0) 1) by (apply Exists_cons_hd; reflexivity).
  assert (Hnil : fst (refreshDialValue keep_error no_faults tx0 1) = None)
    by (vm_compute; reflexivity).
  destruct (refreshDialValue_mean keep_error keep_error_keeps no_faults tx0 1 2
              Hvs Hbound)
    as (_ & (Hround & Hnear & _) & Hstored).
  split; [exact Hvs |]. split; [exact Hbound |].
  split; [exact Hex |]. split; [exact Hnil |]. split; [exact Hround |].
  split; [exact Hnear | exact (Hstored Hex Hnil)].
Defined.

(** Three members saying 2^51, 2^51 and 2^51 + 1.  Their mean is
    2^51 + 1/3, nearest to 2^51.  The doubles near it are half a unit
    apart, so [AVG] yields 2^51 + 1/2, which [ROUND] takes to 2^51 + 1:
    the recompute returns nil and stores 2^51 + 1, which is not the
    integer nearest to the mean. *)
Lemma large_values_round_up :
  computed_value s_large 1 = 2251799813685249 /\
  fst (refreshDialValue keep_error no_faults tx_large 1) = None /\
  select_dial_value None
    (store (snd (refreshDialValue keep_error no_faults tx_large 1))) 1 =
    inr 2251799813685249 /\
  mean (dm_value <$> dial_memberships s_large) == 6755399441055745 # 3 /\
  nearest_ties_away (mean (dm_value <$> dial_memberships s_large))
    2251799813685248 /\
  ~ nearest_ties_away (mean (dm_value <$> dial_memberships s_large))
      (computed_value s_large 1).
Proof.
  split; [vm_compute; reflexivity |].
  split; [vm_compute; reflexivity |].
  split; [vm_compute; reflexivity |].
  split; [vm_compute; reflexivity |].
  split.
  - split; [vm_compute; discriminate |].
    intros Heq. vm_compute in Heq. discriminate.
  - intros [Hnear _]. vm_compute in Hnear. by apply Hnear.
Qed.

(** The running sum of [AVG] depends on the order of the rows once it
    leaves the integers a double holds: 2^53, 1, 1 against 1, 1, 2^53. *)
Example computed_value_order :
  computed_value
    (mkStore [] [mkMembership 1 1 9007199254740992; mkMembership 1 2 1;
                 mkMembership 1 3 1] []) 1 = 3002399751580331 /\
  computed_value
    (mkStore [] [mkMembership 1 1 1; mkMembership 1 2 1;
                 mkMembership 1 3 9007199254740992] []) 1 = 3002399751580332.
Proof. split; vm_compute; reflexivity. Qed.

(** One member saying 2^53 + 1, which no double holds: the aggregate is
    2^53. *)
Example computed_value_2_53 :
  computed_value (mkStore [] [mkMembership 1 1 9007199254740993] []) 1 =
    9007199254740992.
Proof. vm_compute. reflexivity. Qed.

(** A recompute right after a recompute changes nothing, even with a
    cursor that would fail. *)
Lemma refreshDialValue_idempotent_witness :
  let tx := snd (refreshDialValue keep_error no_faults tx0 1) in
  select_dial_value None (store tx) 1 = inr (computed_value (store tx) 1) /\
  fst (refreshDialValue keep_error no_faults tx 1) = None /\
  snd (refreshDialValue keep_error no_faults tx 1) = tx /\
  snd (refreshDialValue keep_error (scan_fails_at 0 "boom")
         (snd (refreshDialValue keep_error no_faults tx 1)) 1) =
    snd (refreshDialValue keep_error no_faults tx 1).
Proof.
  cbv zeta. set (tx := snd (refreshDialValue keep_error no_faults tx0 1)).
  assert (Hold : select_dial_value None (store tx) 1 =
                 inr (computed_value (store tx) 1)) by (vm_compute; reflexivity).
  assert (Hnil : fst (refreshDialValue keep_error no_faults tx 1) = None)
    by (vm_compute; reflexivity).
  destruct (refreshDialValue_idempotent keep_error keep_error_keeps
              no_faults (scan_fails_at 0 "boom") tx 1) as [Hsame Htwice].
  destruct (Hsame Hold) as [Hkeep _].
  split; [exact Hold |]. split; [exact Hnil |].
  split; [exact Hkeep | exact (Htwice Hnil)].
Defined.

(** Dial 2 has a membership but no row: nil, and nothing moves. *)
Lemma refreshDialValue_missing_dial_witness :
  ~ dial_exists (store tx0) 2 /\
  refreshDialValue keep_error no_faults tx0 2 = (None, tx0).
Proof.
  assert (Hno : ~ dial_exists (store tx0) 2).
  { unfold dial_exists. apply (bool_decide_unpack _). vm_compute. exact I. }
  split; [exact Hno |].
  exact (proj2 (refreshDialValue_missing_dial keep_error no_faults tx0 2 Hno)
               eq_refl).
Defined.

(** Values 5 then 7 in one minute, over a history that already holds a
    sample for that minute. *)
Lemma insertDialValue_5_then_7_witness :
  unique_samples (dial_values (store tx1)) /\
  Truncate (61 * Second) (1 * Minute) = Truncate (119 * Second) (1 * Minute) /\
  dial_values (store (snd (insertDialValue keep_error no_faults
    (snd (insertDialValue keep_error no_faults tx1 1 5 (61 * Second)))
    1 7 (119 * Second)))) =
    [mkDialValue 2 0 50; mkDialValue 1 (60 * Second) 7] /\
  filter (conflicts 1 (Truncate (119 * Second) (1 * Minute)))
    (dial_values (store (snd (insertDialValue keep_error no_faults
      (snd (insertDialValue keep_error no_faults tx1 1 5 (61 * Second)))
      1 7 (119 * Second))))) =
    [mkDialValue 1 (Truncate (119 * Second) (1 * Minute)) 7].
Proof.
  assert (Huniq : unique_samples (dial_values (store tx1))).
  { unfold unique_samples. apply (bool_decide_unpack _). vm_compute. exact I. }
  assert (Hsame : Truncate (61 * Second) (1 * Minute) =
                  Truncate (119 * Second) (1 * Minute)) by (vm_compute; reflexivity).
  destruct (insertDialValue_one_sample_per_minute keep_error
              no_faults no_faults tx1 1 5 7 (61 * Second) (119 * Second)
              Huniq eq_refl eq_refl Hsame) as (_ & _ & Hone & _).
  split; [exact Huniq |]. split; [exact Hsame |].
  split; [vm_compute; reflexivity | exact Hone].
Defined.

(** Two members, two events, in table order. *)
Lemma refreshDialValue_fan_out_witness :
  select_dial_value None (store tx0) 1 = inr 0 /\
  fst (refreshDialValue keep_error no_faults tx0 1) = None /\
  db_EventService (snd (refreshDialValue keep_error no_faults tx0 1)) =
    [(7, mkEvent EventTypeDialValueChanged (DialValueChangedPayload 1 2));
     (8, mkEvent EventTypeDialValueChanged (DialValueChangedPayload 1 2))].
Proof.
  assert (Hold : select_dial_value None (store tx0) 1 = inr 0) by reflexivity.
  assert (Hnil : fst (refreshDialValue keep_error no_faults tx0 1) = None)
    by (vm_compute; reflexivity).
  split; [exact Hold |]. split; [exact Hnil |].
  exact (refreshDialValue_fan_out keep_error keep_error_keeps
           no_faults tx0 1 0 Hold Hnil).
Defined.



(** The upsert fails after the UPDATE ran: the driver's error comes back
    wrapped, the transaction holds the updated dial row and no sample,
    nothing is published, and the scope keeps the committed tables. *)
Lemma refreshDialValue_atomic_witness :
  storage_failure (insert_fails_with "disk full") s0 1 /\
  refreshDialValue keep_error (insert_fails_with "disk full") tx0 1 =
    (Some (Errorf "insert historical value" (DriverError "disk full")),
     mkTx (update_dial 1 2 t0 s0) t0 []) /\
  in_transaction
    (fun tx => refreshDialValue keep_error (insert_fails_with "disk full") tx 1)
    s0 t0 [] =
    (Some (Errorf "insert historical value" (DriverError "disk full")), s0, []).
Proof.
  assert (Hfail : storage_failure (insert_fails_with "disk full") s0 1).
  { right. split; [reflexivity |]. exists 0. split; [reflexivity |].
    right. split; [reflexivity |]. split; [vm_compute; discriminate |].
    right. split; [reflexivity |]. by eexists. }
  split; [exact Hfail |].
  destruct (refreshDialValue_atomic (ES := list (Z * Event)) keep_error
              keep_error_keeps (insert_fails_with "disk full") s0 t0 [] 1 Hfail)
    as (text & err & Herr & Hcases & _ & _ & Hscope).
  destruct Hcases as [[[Hf | [[_ Hf] | (_ & _ & Hf)]] _] | (_ & _ & _ & Hf & Hret)];
    try discriminate Hf.
  injection Hf as <-. injection Herr as <-.
  split; [exact Hret |].
  rewrite Hscope. unfold tx0 in Hret. by rewrite Hret.
Defined.

(** At 00:01:01 the dial row is stamped 00:01:01 and the history sample
    00:01:00: the two stored timestamps differ. *)
Lemma stored_timestamps_differ :
  let tx := snd (refreshDialValue keep_error no_faults tx0 1) in
  fst (refreshDialValue keep_error no_faults tx0 1) = None /\
  UpdatedAt <$> dials (store tx) = [61 * Second] /\
  dv_timestamp <$> dial_values (store tx) = [60 * Second] /\
  UpdatedAt <$> dials (store tx) <> dv_timestamp <$> dial_values (store tx).
Proof. vm_compute. repeat split; discriminate. Qed.

(** The same run read the other way: both writes come from [t0]. *)
Lemma refreshDialValue_one_timestamp_witness :
  let tx := snd (refreshDialValue keep_error no_faults tx0 1) in
  select_dial_value None (store tx0) 1 = inr 0 /\
  0 <> computed_value (store tx0) 1 /\
  fst (refreshDialValue keep_error no_faults tx0 1) = None /\
  now tx = t0 /\
  Forall (fun d => ID d = 1 -> UpdatedAt d = t0) (dials (store tx)) /\
  mkDialValue 1 (Truncate t0 (1 * Minute)) (computed_value (store tx0) 1)
    ∈ dial_values (store tx).
Proof.
  cbv zeta.
  assert (Hold : select_dial_value None (store tx0) 1 = inr 0) by reflexivity.
  assert (Hne : 0 <> computed_value (store tx0) 1) by (vm_compute; discriminate).
  assert (Hnil : fst (refreshDialValue keep_error no_faults tx0 1) = None)
    by (vm_compute; reflexivity).
  destruct (refreshDialValue_one_timestamp keep_error keep_error_keeps
              no_faults tx0 1 0 Hold Hne Hnil) as (Hnow & Hdial & Hsample & _).
  split; [exact Hold |]. split; [exact Hne |]. split; [exact Hnil |].
  split; [exact Hnow |]. split; [exact Hdial | exact Hsample].
Defined.

(** With the strings "not_found" and the like for the six constants. *)
Lemma error_code_round_trip_witness :
  let order :=
    map_to_list (http.codes "conflict" "invalid" "not_found" "not_implemented"
                            "unauthorized" "internal") in
  http.FromErrorStatusCode "internal" order
    (http.ErrorStatusCode "conflict" "invalid" "not_found" "not_implemented"
                          "unauthorized" "internal" "not_found") = "not_found" /\
  http.ErrorStatusCode "conflict" "invalid" "not_found" "not_implemented"
                       "unauthorized" "internal" "teapot" = 500 /\
  http.FromErrorStatusCode "internal" order 500 = "internal".
Proof.
  cbv zeta.
  assert (Hdistinct : NoDup ["conflict"; "invalid"; "not_found"; "not_implemented";
                             "unauthorized"; "internal"]).
  { apply (bool_decide_unpack _). vm_compute. exact I. }
  assert (Hin : "not_found" ∈ ["conflict"; "invalid"; "not_found"; "not_implemented";
                               "unauthorized"; "internal"]).
  { apply (bool_decide_unpack _). vm_compute. exact I. }
  assert (Hout : "teapot" ∉ ["conflict"; "invalid"; "not_found"; "not_implemented";
                             "unauthorized"; "internal"]).
  { apply (bool_decide_unpack _). vm_compute. exact I. }
  exact (error_code_round_trip "conflict" "invalid" "not_found" "not_implemented"
           "unauthorized" "internal" Hdistinct
           (map_to_list (http.codes "conflict" "invalid" "not_found"
                           "not_implemented" "unauthorized" "internal"))
           "not_found" "teapot" (reflexivity _) Hin Hout).
Defined.

End Instances.

(** ** Looking dials up *)

Section FindDials.

Context {ES : Type}.
Variable FormatError : error -> option error.
Variable limit_offset : Z -> Z -> list Dial -> list Dial.
Variable ENOTFOUND : string.

(** Whatever clause [FormatLimitOffset] builds, it only drops rows. *)
Hypothesis limit_offset_sublist :
  forall limit offset rows, limit_offset limit offset rows `sublist_of` rows.

Implicit Types (qf : QueryFaults) (tx : Tx ES) (f : DialFilter.t) (d : Dial).

#[local] Instance by_id_transitive : Transitive by_id.
Proof. unfold by_id. intros d1 d2 d3. lia. Qed.

#[local] Instance by_id_total : Total by_id.
Proof. unfold by_id. intros d1 d2. lia. Qed.

Lemma Forall_sublist_of {A} (P : A -> Prop) (l1 l2 : list A) :
  l1 `sublist_of` l2 -> Forall P l2 -> Forall P l1.
Proof.
  intros Hsub Hall. apply Forall_forall. intros x Hx.
  rewrite Forall_forall in Hall. apply Hall. by eapply elem_of_sublist.
Qed.

Lemma StronglySorted_sublist_of {A} (R : relation A) (l1 l2 : list A) :
  l1 `sublist_of` l2 -> StronglySorted R l2 -> StronglySorted R l1.
Proof.
  induction 1 as [| x l1 l2 Hsub IH | x l1 l2 Hsub IH]; intros Hsorted.
  - constructor.
  - apply StronglySorted_inv in Hsorted as [Hl2 Hx].
    constructor; [by apply IH | by eapply Forall_sublist_of].
  - apply StronglySorted_inv in Hsorted as [Hl2 _]. by apply IH.
Qed.

Lemma matching_dials_Permutation (s : Store) userID f :
  matching_dials s userID f ≡ₚ filter (where_clause s userID f) (dials s).
Proof. unfold matching_dials. apply merge_sort_Permutation. Qed.

Lemma matching_dials_where (s : Store) userID f :
  Forall (fun d => where_clause s userID f d /\ d ∈ dials s)
         (matching_dials s userID f).
Proof.
  apply Forall_forall. intros d Hd.
  rewrite matching_dials_Permutation in Hd.
  by apply list_elem_of_filter in Hd.
Qed.

Lemma matching_dials_sorted (s : Store) userID f :
  StronglySorted by_id (matching_dials s userID f).
Proof. unfold matching_dials. apply StronglySorted_merge_sort; apply _. Qed.

Lemma matching_dials_length (s : Store) userID f :
  Z.of_nat (length (matching_dials s userID f)) = matching_count s userID f.
Proof.
  unfold matching_count. by rewrite matching_dials_Permutation.
Qed.

(** The cursor loop either fails, with a nil slice and a zero count, or
    appends every row and leaves the count of the last row scanned. *)
Lemma scan_dials_cases qf count rows : forall k acc n,
  (exists err, scan_dials qf k rows count acc n = (None, 0, Some err)) \/
  scan_dials qf k rows count acc n =
    (Some (acc ++ rows), match rows with [] => n | _ => count end, None).
Proof.
  induction rows as [| d rows IH]; intros k acc n; simpl.
  - destruct (rows_next_fails qf k) as [text |]; [left; by eexists |].
    right. by rewrite app_nil_r.
  - destruct (rows_next_fails qf k) as [text |]; [left; by eexists |].
    destruct (rows_scan_fails qf k) as [text |]; [left; by eexists |].
    destruct (IH (S k) (acc ++ [d]) count) as [Herr | ->]; [by left |].
    right. rewrite <- app_assoc. by destruct rows.
Qed.

Lemma scan_dials_no_faults count rows : forall k acc n,
  scan_dials no_query_faults k rows count acc n =
    (Some (acc ++ rows), match rows with [] => n | _ => count end, None).
Proof.
  induction rows as [| d rows IH]; intros k acc n; simpl.
  - by rewrite app_nil_r.
  - rewrite IH, <- app_assoc. by destruct rows.
Qed.

(** The shape of every result of [findDials]. *)
Lemma findDials_cases qf tx userID f :
  (exists err, findDials FormatError limit_offset qf tx userID f = (None, 0, err)) \/
  findDials FormatError limit_offset qf tx userID f =
    (Some (limit_offset (DialFilter.Limit f) (DialFilter.Offset f)
             (matching_dials (store tx) userID f)),
     match limit_offset (DialFilter.Limit f) (DialFilter.Offset f)
             (matching_dials (store tx) userID f) with
     | [] => 0
     | _ => matching_count (store tx) userID f
     end,
     None).
Proof.
  unfold findDials. destruct (query_fails qf) as [text |]; [left; by eexists |].
  destruct (scan_dials_cases qf (matching_count (store tx) userID f)
              (limit_offset (DialFilter.Limit f) (DialFilter.Offset f)
                 (matching_dials (store tx) userID f)) 0%nat [] 0)
    as [[err ->] | ->]; [left; by eexists | by right].
Qed.

(** What a result with a slice holds. *)
Lemma findDials_returned qf tx userID f ds :
  fst (fst (findDials FormatError limit_offset qf tx userID f)) = Some ds ->
  ds = limit_offset (DialFilter.Limit f) (DialFilter.Offset f)
         (matching_dials (store tx) userID f) /\
  snd (fst (findDials FormatError limit_offset qf tx userID f)) =
    match ds with
    | [] => 0
    | _ => matching_count (store tx) userID f
    end.
Proof.
  destruct (findDials_cases qf tx userID f) as [[err ->] | ->]; [done |].
  simpl. by intros [= <-].
Qed.

Lemma findDials_returned_where qf tx userID f ds :
  fst (fst (findDials FormatError limit_offset qf tx userID f)) = Some ds ->
  Forall (fun d => where_clause (store tx) userID f d /\ d ∈ dials (store tx)) ds.
Proof.
  intros Hds. apply findDials_returned in Hds as [-> _].
  eapply Forall_sublist_of; [apply limit_offset_sublist | apply matching_dials_where].
Qed.

(** With no clause and no failure: all the matching rows. *)
Lemma findDials_no_limit tx userID f :
  limit_offset (DialFilter.Limit f) (DialFilter.Offset f)
    (matching_dials (store tx) userID f) = matching_dials (store tx) userID f ->
  findDials FormatError limit_offset no_query_faults tx userID f =
    (Some (matching_dials (store tx) userID f),
     Z.of_nat (length (matching_dials (store tx) userID f)), None).
Proof.
  intros Hall. unfold findDials. simpl. rewrite Hall, scan_dials_no_faults. simpl.
  rewrite matching_dials_length.
  destruct (matching_dials (store tx) userID f) eqn:Hm; [| done].
  by rewrite <- matching_dials_length, Hm.
Qed.

Lemma filter_nonempty {A} (P : A -> Prop) `{!forall x, Decision (P x)} (l : list A) :
  Exists P l <-> filter P l <> [].
Proof.
  rewrite Exists_exists. split.
  - intros (x & Hin & Hx) Hnil.
    assert (Hx' : x ∈ filter P l) by (by apply list_elem_of_filter).
    rewrite Hnil in Hx'. by apply elem_of_nil in Hx'.
  - destruct (filter P l) as [| x xs] eqn:Hf; [done |].
    intros _. exists x.
    assert (Hx : x ∈ filter P l) by (rewrite Hf; apply elem_of_cons; by left).
    apply list_elem_of_filter in Hx as [Hx Hin]. done.
Qed.

Lemma checkDialExists_nil (tx : Tx ES) id :
  checkDialExists FormatError ENOTFOUND None tx id = None <->
  dial_exists (store tx) id.
Proof.
  unfold checkDialExists, count_dials.
  destruct (decide (dial_exists (store tx) id)) as [Hex | Hno].
  - destruct (select_dial_value_present _ _ Hex) as [old Hold].
    unfold select_dial_value in Hold.
    destruct (filter _ (dials (store tx))) as [| d ds]; [discriminate |].
    rewrite decide_False by (simpl; lia). split; done.
  - rewrite filter_dial_nil by done. rewrite decide_True by done. split; done.
Qed.

Lemma findDialByID_cases qf tx userID id :
  (exists d,
     findDialByID FormatError limit_offset ENOTFOUND qf tx userID id = (Some d, None) /\
     ID d = id /\ member_of (store tx) userID d /\ d ∈ dials (store tx)) \/
  (exists err,
     findDialByID FormatError limit_offset ENOTFOUND qf tx userID id = (None, Some err)).
Proof.
  unfold findDialByID.
  pose proof (findDials_returned_where qf tx userID (DialFilter.mk (Some id) None 0 0))
    as Hwhere.
  destruct (findDials _ _ _ _ _ _) as [[[[| d ds] |] n] [err |]];
    try (right; by eexists).
  left. exists d. split; [done |].
  specialize (Hwhere (d :: ds) eq_refl).
  apply Forall_cons in Hwhere as [[[Hid Hmember] Hin] _]. done.
Qed.

(** X1: when [findDials] returns an error it returns a nil slice and a zero
    count with it, whether the query, a [rows.Scan] or the cursor failed. *)
Theorem findDials_failure qf tx userID f :
  snd (findDials FormatError limit_offset qf tx userID f) <> None ->
  findDials FormatError limit_offset qf tx userID f =
    (None, 0, snd (findDials FormatError limit_offset qf tx userID f)).
Proof.
  destruct (findDials_cases qf tx userID f) as [[err ->] | ->]; [done |].
  simpl. by intros [].
Qed.

(** X2: the dials [findDials] returns are rows of the table that satisfy
    the WHERE clause, in ascending order of id and each matching row at
    most once; the count returned with them is the number of all matching
    rows, not of the rows returned, and it is 0 when no row is returned. *)
Theorem findDials_sound qf tx userID f ds :
  fst (fst (findDials FormatError limit_offset qf tx userID f)) = Some ds ->
  Forall (fun d => where_clause (store tx) userID f d /\ d ∈ dials (store tx)) ds /\
  StronglySorted by_id ds /\
  ds `sublist_of` matching_dials (store tx) userID f /\
  snd (fst (findDials FormatError limit_offset qf tx userID f)) =
    match ds with
    | [] => 0
    | _ => Z.of_nat (length (filter (where_clause (store tx) userID f)
                                    (dials (store tx))))
    end /\
  Z.of_nat (length ds) <=
    Z.of_nat (length (filter (where_clause (store tx) userID f) (dials (store tx)))).
Proof.
  intros Hds. split; [exact (findDials_returned_where qf tx userID f ds Hds) |].
  apply findDials_returned in Hds as [-> Hn].
  pose proof (limit_offset_sublist (DialFilter.Limit f) (DialFilter.Offset f)
                (matching_dials (store tx) userID f)) as Hsub.
  split; [eapply StronglySorted_sublist_of; [exact Hsub | apply matching_dials_sorted] |].
  split; [exact Hsub |]. split; [exact Hn |].
  apply sublist_length in Hsub.
  pose proof (matching_dials_length (store tx) userID f) as Hlen.
  unfold matching_count in Hlen. lia.
Qed.

(** X3: when the clause after ORDER BY lets every row through and nothing
    fails, [findDials] returns exactly the rows of [dials] that satisfy the
    WHERE clause, each once, and the count is the length of the result. *)
Theorem findDials_complete tx userID f :
  limit_offset (DialFilter.Limit f) (DialFilter.Offset f)
    (matching_dials (store tx) userID f) = matching_dials (store tx) userID f ->
  exists ds,
    findDials FormatError limit_offset no_query_faults tx userID f =
      (Some ds, Z.of_nat (length ds), None) /\
    ds ≡ₚ filter (where_clause (store tx) userID f) (dials (store tx)).
Proof.
  intros Hall. exists (matching_dials (store tx) userID f).
  split; [by apply findDials_no_limit | apply matching_dials_Permutation].
Qed.

(** X4: without an invite code in the filter [findDials] only returns
    dials the calling user is a member of; with an invite code in the
    filter the caller plays no part: whatever the driver does, any two
    users get the same answer. *)
Theorem findDials_visibility qf qf' tx userID userID' f f' :
  (DialFilter.InviteCode f = None ->
   forall ds,
     fst (fst (findDials FormatError limit_offset qf tx userID f)) = Some ds ->
     Forall (member_of (store tx) userID) ds) /\
  (is_Some (DialFilter.InviteCode f') ->
   findDials FormatError limit_offset qf' tx userID f' =
     findDials FormatError limit_offset qf' tx userID' f').
Proof.
  split.
  - intros Hnone ds Hds.
    eapply Forall_impl; [exact (findDials_returned_where qf tx userID f ds Hds) |].
    intros d [[_ Hmember] _]. by rewrite Hnone in Hmember.
  - intros [code Hcode].
    assert (Hsame : filter (where_clause (store tx) userID f') (dials (store tx)) =
                    filter (where_clause (store tx) userID' f') (dials (store tx))).
    { apply list_filter_iff. intros d. unfold where_clause. by rewrite Hcode. }
    unfold findDials, matching_dials, matching_count. by rewrite Hsame.
Qed.

(** X5: [findDialByID] never returns a dial together with an error and
    never returns neither; a dial it returns is a row with the id asked
    for, of which the calling user is a member. *)
Theorem findDialByID_result qf tx userID id :
  (exists d,
     findDialByID FormatError limit_offset ENOTFOUND qf tx userID id = (Some d, None) /\
     ID d = id /\ member_of (store tx) userID d /\ d ∈ dials (store tx)) \/
  (exists err,
     findDialByID FormatError limit_offset ENOTFOUND qf tx userID id = (None, Some err)).
Proof. apply findDialByID_cases. Qed.

(** X6: with no clause after ORDER BY for a zero limit and offset and
    nothing failing, [findDialByID] finds a dial exactly when some row has
    the id and the calling user is a member of it; otherwise, also when the
    dial exists but the user is no member, the answer is ENOTFOUND. *)
Theorem findDialByID_not_found tx userID id :
  (forall rows, limit_offset 0 0 rows = rows) ->
  (fst (findDialByID FormatError limit_offset ENOTFOUND no_query_faults tx userID id)
     = None <->
   ~ Exists (fun d => ID d = id /\ member_of (store tx) userID d) (dials (store tx))) /\
  (fst (findDialByID FormatError limit_offset ENOTFOUND no_query_faults tx userID id)
     = None ->
   findDialByID FormatError limit_offset ENOTFOUND no_query_faults tx userID id =
     (None, Some (Error ENOTFOUND "Dial not found."))).
Proof.
  intros Hall. unfold findDialByID.
  rewrite (findDials_no_limit tx userID (DialFilter.mk (Some id) None 0 0) (Hall _)).
  pose proof (matching_dials_Permutation (store tx) userID
                (DialFilter.mk (Some id) None 0 0)) as Hperm.
  assert (Hex : Exists (fun d => ID d = id /\ member_of (store tx) userID d)
                       (dials (store tx)) <->
                matching_dials (store tx) userID (DialFilter.mk (Some id) None 0 0)
                  <> []).
  { change (Exists (where_clause (store tx) userID (DialFilter.mk (Some id) None 0 0))
                   (dials (store tx)) <->
            matching_dials (store tx) userID (DialFilter.mk (Some id) None 0 0) <> []).
    rewrite filter_nonempty.
    split; intros Hne Hnil; apply Hne.
    - apply Permutation_nil_r. by rewrite <- Hperm, Hnil.
    - apply Permutation_nil_r. by rewrite Hperm, Hnil. }
  destruct (matching_dials _ _ _) as [| d ds]; simpl.
  - split; [| done]. split; [| done]. intros _ Hsome. by apply Hex in Hsome.
  - split; [| done]. split; [done |]. intros Hno. exfalso. apply Hno. by apply Hex.
Qed.

(** X7: with its query running, [checkDialExists] returns nil exactly when
    a dial row has the id, whoever its members are, and ENOTFOUND exactly
    when the lookup of [refreshDialValue] would find no row. *)
Theorem checkDialExists_exists (tx : Tx ES) id :
  (checkDialExists FormatError ENOTFOUND None tx id = None <->
   dial_exists (store tx) id) /\
  (checkDialExists FormatError ENOTFOUND None tx id =
     Some (Error ENOTFOUND "Dial not found.") <->
   select_dial_value None (store tx) id = inl ErrNoRows).
Proof.
  split; [apply checkDialExists_nil |].
  unfold checkDialExists, count_dials, select_dial_value.
  destruct (filter _ (dials (store tx))) as [| d ds].
  - by rewrite decide_True.
  - rewrite decide_False by (simpl; lia). split; done.
Qed.

(** X8: a dial that [findDialByID] returns passes [checkDialExists]. *)
Theorem findDialByID_checkDialExists qf tx userID id d :
  findDialByID FormatError limit_offset ENOTFOUND qf tx userID id = (Some d, None) ->
  checkDialExists FormatError ENOTFOUND None tx id = None.
Proof.
  intros Hfind.
  destruct (findDialByID_cases qf tx userID id)
    as [(d' & Hres & Hid & _ & Hin) | [err Hres]]; [| congruence].
  apply checkDialExists_nil. apply Exists_exists. by exists d'.
Qed.

End FindDials.

(** ** More on the pipeline *)

Section Notified.

Context {ES : Type} `{!EventService ES}.
Variable FormatError : error -> option error.

Implicit Types (fl : Faults) (tx : Tx ES) (id : Z) (event : Event).

(** The cursor loop has published for the rows before the one where it
    stopped, and it stops early only at a row whose fetch fails. *)
Lemma publish_rows_prefix fl event rows : forall k es,
  exists j,
    (j <= length rows)%nat /\
    snd (publish_rows fl k rows event es) = published event (take j rows) es /\
    (fst (publish_rows fl k rows event es) = None -> j = length rows) /\
    (fst (publish_rows fl k rows event es) <> None ->
     is_Some (next_fails fl (k + j)) \/ is_Some (scan_fails fl (k + j))).
Proof.
  induction rows as [| u rows IH]; intros k es; simpl.
  - exists 0%nat. rewrite Nat.add_0_r.
    destruct (next_fails fl k) as [text |]; simpl; repeat split; eauto; done.
  - destruct (next_fails fl k) as [text |] eqn:Hnext.
    { exists 0%nat. rewrite Nat.add_0_r, Hnext. simpl.
      repeat split; eauto with lia; done. }
    destruct (scan_fails fl k) as [text |] eqn:Hscan.
    { exists 0%nat. rewrite Nat.add_0_r, Hscan. simpl.
      repeat split; eauto with lia; done. }
    destruct (IH (S k) (PublishEvent es u event)) as (j & Hj & Hpub & Hall & Hstop).
    exists (S j). rewrite <- Nat.add_succ_comm.
    split; [lia |]. split; [exact Hpub |]. split; [| exact Hstop].
    intros Hnil. by rewrite Hall.
Qed.

(** X9: when the member query runs, [publishDialEvent] has notified the
    members before some position of the member list, in order, and nobody
    else; all of them when it returns nil, and when it returns an error the
    position is that of the row whose [rows.Next] or [rows.Scan] failed.
    The tables are untouched. *)
Theorem publishDialEvent_prefix fl tx id event :
  select_members_fails fl = None ->
  exists j,
    (j <= length (select_members (store tx) id))%nat /\
    snd (publishDialEvent FormatError fl tx id event) =
      set_EventService tx
        (published event (take j (select_members (store tx) id)) (db_EventService tx)) /\
    (fst (publishDialEvent FormatError fl tx id event) = None ->
     j = length (select_members (store tx) id)) /\
    (fst (publishDialEvent FormatError fl tx id event) <> None ->
     is_Some (next_fails fl j) \/ is_Some (scan_fails fl j)).
Proof.
  intros Hquery. unfold publishDialEvent. rewrite Hquery.
  destruct (publish_rows_prefix fl event (select_members (store tx) id)
              0%nat (db_EventService tx)) as (j & Hj & Hpub & Hall & Hstop).
  exists j. destruct (publish_rows _ _ _ _ _) as [err es]. simpl in *.
  split; [exact Hj |]. split; [by rewrite Hpub |]. split; [exact Hall | exact Hstop].
Qed.

(** X10: when the upsert of the history sample fails, [refreshDialValue]
    returns the error prefixed with "insert historical value" and hands
    back a transaction in which the dial row already has the new value and
    update time; the history and the event service are as before. *)
Theorem refreshDialValue_history_failure fl tx id old text err :
  select_value_fails fl = None ->
  select_avg_fails fl = None ->
  update_fails fl = None ->
  insert_fails fl = Some text ->
  FormatError (DriverError text) = Some err ->
  select_dial_value None (store tx) id = inr old ->
  old <> computed_value (store tx) id ->
  refreshDialValue FormatError fl tx id =
    (Some (Errorf "insert historical value" err),
     set_store tx (update_dial id (computed_value (store tx) id) (now tx) (store tx))).
Proof.
  intros Hload Havg Hupd Hins Hfe Hold Hne.
  unfold refreshDialValue, insertDialValue, select_avg_value.
  rewrite Hload, Hold, Havg, decide_False by done.
  rewrite Hupd, Hins, Hfe. reflexivity.
Qed.

(** X11: every run of [refreshDialValue], failing or not, keeps the
    history free of duplicate (dial, timestamp) keys. *)
Theorem refreshDialValue_unique_samples fl tx id :
  unique_samples (dial_values (store tx)) ->
  unique_samples (dial_values (store (snd (refreshDialValue FormatError fl tx id)))).
Proof.
  intros Huniq.
  destruct (refreshDialValue_store FormatError fl tx id) as [_ Hstore].
  simpl in Hstore. destruct Hstore as [-> | [-> | ->]]; [done | done |].
  by apply upsert_unique.
Qed.

Lemma overwrite_overwrite id t value value' (r : dial_value) :
  overwrite id t value' (overwrite id t value r) = overwrite id t value' r.
Proof.
  destruct (decide (conflicts id t r)) as [Hr | Hr].
  - rewrite (overwrite_hit id t value r Hr), (overwrite_hit id t value' r Hr).
    by apply overwrite_hit.
  - by rewrite (overwrite_miss id t value r Hr).
Qed.

Lemma upsert_upsert id t value value' (rows : list dial_value) :
  upsert_dial_value id t value' (upsert_dial_value id t value rows) =
  upsert_dial_value id t value' rows.
Proof.
  unfold upsert_dial_value at 2 3.
  destruct (decide (Exists (conflicts id t) rows)) as [Hex | Hno].
  - unfold upsert_dial_value. rewrite decide_True.
    + rewrite <- list_fmap_compose. apply list_fmap_ext.
      intros i r _. apply overwrite_overwrite.
    + apply Exists_exists in Hex as (r & Hin & Hr).
      apply Exists_exists. exists (overwrite id t value r).
      split; [by apply list_elem_of_fmap_2 |].
      by rewrite overwrite_hit.
  - unfold upsert_dial_value. rewrite decide_True.
    + rewrite fmap_app. simpl. rewrite overwrite_hit by done. f_equal.
      rewrite <- (list_fmap_id rows) at 2. apply list_fmap_ext.
      intros i r Hr. apply overwrite_miss. intros Hc. apply Hno.
      apply Exists_exists. exists r. split; [| done].
      by eapply list_elem_of_lookup_2.
    + apply Exists_app. right. by apply Exists_cons_hd.
Qed.

(** X12: of two recordings for the same dial in the same minute the later
    one wins: the transaction is the one the second recording alone would
    have produced, so recording the same value twice equals recording it
    once. *)
Theorem insertDialValue_last_write_wins fl fl' tx id value value' t t' :
  insert_fails fl = None ->
  insert_fails fl' = None ->
  Truncate t (1 * Minute) = Truncate t' (1 * Minute) ->
  snd (insertDialValue FormatError fl'
         (snd (insertDialValue FormatError fl tx id value t)) id value' t') =
  snd (insertDialValue FormatError fl' tx id value' t').
Proof.
  intros Hfl Hfl' Hsame. unfold insertDialValue. rewrite Hfl, Hfl', Hsame. simpl.
  unfold set_store, insert_dial_value. simpl. by rewrite upsert_upsert.
Qed.

End Notified.

(** ** More on the aggregate *)

Section Aggregate.

Implicit Types (s : Store) (id lo hi : Z) (xs : list Z).

Lemma sum_bounds lo hi xs :
  Forall (fun x => lo <= x <= hi) xs ->
  lo * Z.of_nat (length xs) <= foldr Z.add 0 xs <= hi * Z.of_nat (length xs).
Proof.
  induction 1 as [| x xs Hx _ IH]; simpl; [lia |].
  rewrite Nat2Z.inj_succ. lia.
Qed.

Lemma mean_bounds lo hi xs :
  xs <> [] ->
  Forall (fun x => lo <= x <= hi) xs ->
  (inject_Z lo <= mean xs <= inject_Z hi)%Q.
Proof.
  intros Hne Hall. pose proof (sum_bounds lo hi xs Hall) as [Hlo Hhi].
  assert (Hlen : (0 < inject_Z (Z.of_nat (length xs)))%Q).
  { change 0%Q with (inject_Z 0). rewrite <- Zlt_Qlt. destruct xs; [done | simpl; lia]. }
  unfold mean. split.
  - apply Qle_shift_div_l; [exact Hlen |].
    rewrite <- inject_Z_mult. by rewrite <- Zle_Qle.
  - apply Qle_shift_div_r; [exact Hlen |].
    rewrite <- inject_Z_mult. by rewrite <- Zle_Qle.
Qed.

Lemma nearest_within lo hi (q : Q) (n : Z) :
  (inject_Z lo <= q <= inject_Z hi)%Q ->
  nearest_ties_away q n ->
  lo <= n <= hi.
Proof.
  intros [Hlo Hhi] [Hnear _]. apply Qabs_Qle_condition in Hnear as [Hl Hu].
  split.
  - destruct (Z_lt_le_dec n lo) as [Hlt | Hge]; [exfalso | exact Hge].
    assert (H1 : (inject_Z (n + 1) <= inject_Z lo)%Q) by (rewrite <- Zle_Qle; lia).
    rewrite inject_Z_plus in H1. change (inject_Z 1) with 1%Q in H1. lra.
  - destruct (Z_lt_le_dec hi n) as [Hlt | Hge]; [exfalso | exact Hge].
    assert (H1 : (inject_Z (hi + 1) <= inject_Z n)%Q) by (rewrite <- Zle_Qle; lia).
    rewrite inject_Z_plus in H1. change (inject_Z 1) with 1%Q in H1. lra.
Qed.

(** X13: for a dial with [n] memberships, at least one, whose values lie
    within [lo, hi] and within [-M, M], where [n * (M + 1) <= 2^51], the
    computed value lies between the smallest and the largest of its
    members' values: it is within [lo, hi] too. *)
Theorem computed_value_bounds s id lo hi M :
  Exists (fun m => dm_dial_id m = id) (dial_memberships s) ->
  Forall (fun m => dm_dial_id m = id -> lo <= dm_value m <= hi) (dial_memberships s) ->
  - M <= lo -> hi <= M ->
  Z.of_nat (length (filter (fun m => dm_dial_id m = id) (dial_memberships s))) *
    (M + 1) <= 2 ^ 51 ->
  lo <= computed_value s id <= hi.
Proof.
  intros Hex Hall HloM HhiM Hbound.
  assert (Hvs : Forall (fun x => lo <= x <= hi)
                  (dm_value <$> filter (fun m => dm_dial_id m = id) (dial_memberships s))).
  { apply Forall_fmap, Forall_forall. intros m Hm.
    apply list_elem_of_filter in Hm as [Hid Hin].
    rewrite Forall_forall in Hall. by apply Hall. }
  assert (Hne : dm_value <$> filter (fun m => dm_dial_id m = id) (dial_memberships s)
                <> []).
  { apply Exists_exists in Hex as (m & Hin & Hid). intros Hnil.
    apply fmap_nil_inv in Hnil.
    assert (Hm : m ∈ filter (fun m => dm_dial_id m = id) (dial_memberships s))
      by (by apply list_elem_of_filter).
    rewrite Hnil in Hm. by apply elem_of_nil in Hm. }
  apply (nearest_within lo hi
           (mean (dm_value <$> filter (fun m => dm_dial_id m = id) (dial_memberships s)))).
  - by apply mean_bounds.
  - unfold computed_value. rewrite (CAST_ROUND_AVG _ M).
    + apply round_half_away_nearest.
    + exact Hne.
    + eapply Forall_impl; [exact Hvs |]. intros v Hv. simpl in Hv. lia.
    + by rewrite length_fmap.
Qed.

Lemma sum_Permutation xs ys : xs ≡ₚ ys -> foldr Z.add 0 xs = foldr Z.add 0 ys.
Proof. induction 1; simpl; lia. Qed.

(** X14: while a dial has [n] memberships with values within [-M, M],
    where [n * (M + 1) <= 2^51], the value computed for it depends only on
    the values of its memberships and on how often each occurs: the order
    of the rows, the users they belong to and the memberships of other
    dials play no part. *)
Theorem computed_value_Permutation s s' id M :
  dm_value <$> filter (fun m => dm_dial_id m = id) (dial_memberships s) ≡ₚ
  dm_value <$> filter (fun m => dm_dial_id m = id) (dial_memberships s') ->
  Forall (fun v => Z.abs v <= M)
    (dm_value <$> filter (fun m => dm_dial_id m = id) (dial_memberships s)) ->
  Z.of_nat (length (filter (fun m => dm_dial_id m = id) (dial_memberships s))) *
    (M + 1) <= 2 ^ 51 ->
  computed_value s id = computed_value s' id.
Proof.
  unfold computed_value. intros Hperm Hvs Hbound.
  rewrite <- (length_fmap dm_value) in Hbound.
  assert (Hvs' : Forall (fun v => Z.abs v <= M)
            (dm_value <$> filter (fun m => dm_dial_id m = id) (dial_memberships s')))
    by (by rewrite <- Hperm).
  assert (Hbound' : Z.of_nat (length
            (dm_value <$> filter (fun m => dm_dial_id m = id) (dial_memberships s'))) *
            (M + 1) <= 2 ^ 51)
    by (by rewrite <- Hperm).
  destruct (dm_value <$> filter _ (dial_memberships s)) as [| x xs] eqn:Hxs;
    destruct (dm_value <$> filter _ (dial_memberships s')) as [| y ys] eqn:Hys.
  - done.
  - by apply Permutation_nil_cons in Hperm.
  - symmetry in Hperm. by apply Permutation_nil_cons in Hperm.
  - rewrite (CAST_ROUND_AVG (x :: xs) M), (CAST_ROUND_AVG (y :: ys) M) by done.
    unfold mean.
    by rewrite (sum_Permutation _ _ Hperm), (Permutation_length Hperm).
Qed.

End Aggregate.

(** ** More on the code table *)

Section StatusCodes.

Import http.

Variables ECONFLICT EINVALID ENOTFOUND ENOTIMPLEMENTED EUNAUTHORIZED EINTERNAL
  : string.

Hypothesis codes_distinct :
  NoDup [ECONFLICT; EINVALID; ENOTFOUND; ENOTIMPLEMENTED; EUNAUTHORIZED; EINTERNAL].

(** The loop either meets an entry with the status and returns its key, or
    finds the status nowhere and returns EINTERNAL. *)
Lemma FromErrorStatusCode_cases (order : list (string * Z)) (status : Z) :
  (FromErrorStatusCode EINTERNAL order status, status) ∈ order \/
  ((status ∉ order.*2) /\ FromErrorStatusCode EINTERNAL order status = EINTERNAL).
Proof.
  induction order as [| [k v] order IH]; simpl.
  - right. split; [| done]. intros Hin. by apply elem_of_nil in Hin.
  - destruct (decide (v = status)) as [-> | Hne].
    + left. apply elem_of_cons. by left.
    + destruct IH as [Hin | [Hout Hres]].
      * left. apply elem_of_cons. by right.
      * right. split; [| done]. intros Hin.
        apply elem_of_cons in Hin as [Heq | Hin]; [done | by apply Hout].
Qed.

Lemma codes_lookup_literal (code : string) (status : Z) :
  (code, status) ∈
    codes_literal ECONFLICT EINVALID ENOTFOUND ENOTIMPLEMENTED EUNAUTHORIZED EINTERNAL ->
  ErrorStatusCode ECONFLICT EINVALID ENOTFOUND ENOTIMPLEMENTED EUNAUTHORIZED EINTERNAL
    code = status.
Proof.
  intros Hin. unfold ErrorStatusCode, codes.
  apply elem_of_list_to_map in Hin; [by rewrite Hin | exact codes_distinct].
Qed.

Lemma ErrorStatusCode_in_table (code : string) :
  ErrorStatusCode ECONFLICT EINVALID ENOTFOUND ENOTIMPLEMENTED EUNAUTHORIZED EINTERNAL
    code ∈ [StatusConflict; StatusBadRequest; StatusNotFound; StatusNotImplemented;
            StatusUnauthorized; StatusInternalServerError].
Proof.
  unfold ErrorStatusCode, codes.
  destruct (list_to_map _ !! code) as [v |] eqn:Hlook.
  - apply elem_of_list_to_map_2 in Hlook.
    change (v ∈ (codes_literal ECONFLICT EINVALID ENOTFOUND ENOTIMPLEMENTED
                   EUNAUTHORIZED EINTERNAL).*2).
    apply list_elem_of_fmap. by exists (code, v).
  - rewrite !elem_of_cons. auto 10.
Qed.

Lemma ErrorStatusCode_4xx_5xx (code : string) :
  400 <= ErrorStatusCode ECONFLICT EINVALID ENOTFOUND ENOTIMPLEMENTED EUNAUTHORIZED
           EINTERNAL code <= 599.
Proof.
  pose proof (ErrorStatusCode_in_table code) as Hin.
  rewrite !elem_of_cons, elem_of_nil in Hin.
  unfold StatusConflict, StatusBadRequest, StatusNotFound, StatusNotImplemented,
    StatusUnauthorized, StatusInternalServerError in Hin. lia.
Qed.

(** X15: whatever the code, known or not, [ErrorStatusCode] answers with
    one of the six statuses of the table, so with a 4xx or 5xx status. *)
Theorem ErrorStatusCode_range (code : string) :
  ErrorStatusCode ECONFLICT EINVALID ENOTFOUND ENOTIMPLEMENTED EUNAUTHORIZED EINTERNAL
    code ∈ [StatusConflict; StatusBadRequest; StatusNotFound; StatusNotImplemented;
            StatusUnauthorized; StatusInternalServerError] /\
  400 <= ErrorStatusCode ECONFLICT EINVALID ENOTFOUND ENOTIMPLEMENTED EUNAUTHORIZED
           EINTERNAL code <= 599.
Proof. split; [apply ErrorStatusCode_in_table | apply ErrorStatusCode_4xx_5xx]. Qed.

(** X16: the other way round: whatever order the [range] takes, a status
    of the table turned into a code and back is that status, any other
    status comes back as 500, and the code in between is always one of the
    six of the table. *)
Theorem status_round_trip (order : list (string * Z)) (status : Z) :
  range_order ECONFLICT EINVALID ENOTFOUND ENOTIMPLEMENTED EUNAUTHORIZED EINTERNAL
    order ->
  ErrorStatusCode ECONFLICT EINVALID ENOTFOUND ENOTIMPLEMENTED EUNAUTHORIZED EINTERNAL
    (FromErrorStatusCode EINTERNAL order status) =
    (if decide (status ∈ [StatusConflict; StatusBadRequest; StatusNotFound;
                           StatusNotImplemented; StatusUnauthorized;
                           StatusInternalServerError])
     then status else StatusInternalServerError) /\
  FromErrorStatusCode EINTERNAL order status ∈
    [ECONFLICT; EINVALID; ENOTFOUND; ENOTIMPLEMENTED; EUNAUTHORIZED; EINTERNAL].
Proof.
  intros Horder.
  apply (range_order_literal _ _ _ _ _ _ codes_distinct) in Horder.
  assert (Hvalues : (codes_literal ECONFLICT EINVALID ENOTFOUND ENOTIMPLEMENTED
                       EUNAUTHORIZED EINTERNAL).*2 =
                    [StatusConflict; StatusBadRequest; StatusNotFound;
                     StatusNotImplemented; StatusUnauthorized;
                     StatusInternalServerError]) by reflexivity.
  assert (Hkeys : (codes_literal ECONFLICT EINVALID ENOTFOUND ENOTIMPLEMENTED
                     EUNAUTHORIZED EINTERNAL).*1 =
                  [ECONFLICT; EINVALID; ENOTFOUND; ENOTIMPLEMENTED; EUNAUTHORIZED;
                   EINTERNAL]) by reflexivity.
  rewrite <- Hvalues, <- Hkeys.
  destruct (FromErrorStatusCode_cases order status) as [Hin | [Hout ->]].
  - revert Hin. generalize (FromErrorStatusCode EINTERNAL order status).
    intros k Hin. rewrite Horder in Hin. rewrite (codes_lookup_literal _ _ Hin).
    split.
    + rewrite decide_True; [done |]. apply list_elem_of_fmap. by eexists (_, status).
    + apply list_elem_of_fmap. by eexists (_, status).
  - rewrite Horder in Hout. rewrite decide_False by done. split.
    + apply codes_lookup_literal. unfold codes_literal. rewrite !elem_of_cons. auto 10.
    + rewrite Hkeys, !elem_of_cons. auto 10.
Qed.

End StatusCodes.

(** ** Writing responses *)

Section Responses.

Import http.

Variables ECONFLICT EINVALID ENOTFOUND ENOTIMPLEMENTED EUNAUTHORIZED EINTERNAL
  : string.

Context {context S : Type} `{!DialService context S}.

Variable ErrorCode : option error -> string.
Variable ErrorMessage : option error -> string.
Variable Atoi : string -> option Z.
Variable Decode : string -> option Z.

Hypothesis codes_distinct :
  NoDup [ECONFLICT; EINVALID; ENOTFOUND; ENOTIMPLEMENTED; EUNAUTHORIZED; EINTERNAL].

(** [wtf.ErrorCode] answers with the code of a [*wtf.Error]. *)
Hypothesis ErrorCode_Errorf :
  forall code message, ErrorCode (Some (wtf_Errorf code message)) = code.

Implicit Types (r : Request context) (err : option error) (s : S).

Lemma Error_headers_first r err : headers_first (Error ECONFLICT EINVALID ENOTFOUND ENOTIMPLEMENTED EUNAUTHORIZED EINTERNAL ErrorCode ErrorMessage r err) = true.
Proof.
  unfold Error, LogError.
  by destruct (decide (ErrorCode err = EINTERNAL)),
       (decide (Accept r = "application/json")).
Qed.

Lemma Error_one_header r err :
  filter (fun e => writes_header e = true) (Error ECONFLICT EINVALID ENOTFOUND ENOTIMPLEMENTED EUNAUTHORIZED EINTERNAL ErrorCode ErrorMessage r err) =
    [WriteHeader (ErrorStatusCode ECONFLICT EINVALID ENOTFOUND ENOTIMPLEMENTED EUNAUTHORIZED EINTERNAL (ErrorCode err))].
Proof.
  unfold Error, LogError.
  by destruct (decide (ErrorCode err = EINTERNAL)),
       (decide (Accept r = "application/json")).
Qed.

Lemma Error_no_success_output r err e :
  e ∈ Error ECONFLICT EINVALID ENOTFOUND ENOTIMPLEMENTED EUNAUTHORIZED EINTERNAL ErrorCode ErrorMessage r err ->
  match e with
  | Write _ | Redirect _ _ | SetCookie _ => False
  | _ => True
  end.
Proof.
  unfold Error, LogError.
  destruct (decide (ErrorCode err = EINTERNAL)),
    (decide (Accept r = "application/json")); simpl;
    rewrite ?elem_of_cons, elem_of_nil; intros Hin;
    repeat (destruct Hin as [-> | Hin]; [done |]); done.
Qed.

Lemma ErrorStatusCode_EINVALID : ErrorStatusCode ECONFLICT EINVALID ENOTFOUND ENOTIMPLEMENTED EUNAUTHORIZED EINTERNAL EINVALID = StatusBadRequest.
Proof.
  unfold ErrorStatusCode, codes.
  assert (Hlook : (list_to_map (codes_literal ECONFLICT EINVALID ENOTFOUND ENOTIMPLEMENTED EUNAUTHORIZED EINTERNAL) : gmap string Z) !! EINVALID
                  = Some StatusBadRequest).
  { apply elem_of_list_to_map; [exact codes_distinct |].
    unfold codes_literal. rewrite !elem_of_cons. auto 10. }
  by rewrite Hlook.
Qed.


(** X18: [Error] reports and logs an error exactly when its code is
    EINTERNAL.  A code outside the table is answered with status 500 all
    the same, so unless it is EINTERNAL a 500 goes out without a report or
    a log line. *)
Theorem Error_reports_internal_only r err :
  (ReportError err ∈ Error ECONFLICT EINVALID ENOTFOUND ENOTIMPLEMENTED EUNAUTHORIZED EINTERNAL ErrorCode ErrorMessage r err <-> ErrorCode err = EINTERNAL) /\
  (LogPrintf (Method r) (URL_Path r) err ∈ Error ECONFLICT EINVALID ENOTFOUND ENOTIMPLEMENTED EUNAUTHORIZED EINTERNAL ErrorCode ErrorMessage r err <->
   ErrorCode err = EINTERNAL) /\
  (ErrorCode err ∉ [ECONFLICT; EINVALID; ENOTFOUND; ENOTIMPLEMENTED; EUNAUTHORIZED;
                    EINTERNAL] ->
   WriteHeader StatusInternalServerError ∈ Error ECONFLICT EINVALID ENOTFOUND ENOTIMPLEMENTED EUNAUTHORIZED EINTERNAL ErrorCode ErrorMessage r err /\
   Forall (fun e => match e with
                    | ReportError _ | LogPrintf _ _ _ => False
                    | _ => True
                    end) (Error ECONFLICT EINVALID ENOTFOUND ENOTIMPLEMENTED EUNAUTHORIZED EINTERNAL ErrorCode ErrorMessage r err)).
Proof.
  split; [| split].
  - unfold Error, LogError.
    destruct (decide (ErrorCode err = EINTERNAL)),
      (decide (Accept r = "application/json")); simpl;
      rewrite ?elem_of_cons, elem_of_nil; split; intros Hin; try done; auto 10;
      repeat (destruct Hin as [Hin | Hin]; [done |]); done.
  - unfold Error, LogError.
    destruct (decide (ErrorCode err = EINTERNAL)),
      (decide (Accept r = "application/json")); simpl;
      rewrite ?elem_of_cons, elem_of_nil; split; intros Hin; try done; auto 10;
      repeat (destruct Hin as [Hin | Hin]; [done |]); done.
  - intros Hout.
    assert (Hext : ErrorCode err <> EINTERNAL).
    { intros Heq. apply Hout. rewrite Heq, !elem_of_cons. auto 10. }
    assert (Hstatus : ErrorStatusCode ECONFLICT EINVALID ENOTFOUND ENOTIMPLEMENTED EUNAUTHORIZED EINTERNAL (ErrorCode err) = StatusInternalServerError).
    { unfold ErrorStatusCode, codes.
      by rewrite (not_elem_of_list_to_map_1 (codes_literal ECONFLICT EINVALID ENOTFOUND ENOTIMPLEMENTED EUNAUTHORIZED EINTERNAL) _ Hout). }
    unfold Error, LogError. rewrite Hstatus, decide_False by done.
    destruct (decide (Accept r = "application/json")); simpl;
      (split; [rewrite !elem_of_cons; auto 10 | repeat constructor]).
Qed.

Lemma Error_EINVALID_header r message :
  filter (fun e => writes_header e = true)
         (Error ECONFLICT EINVALID ENOTFOUND ENOTIMPLEMENTED EUNAUTHORIZED EINTERNAL ErrorCode ErrorMessage r (Some (wtf_Errorf EINVALID message))) =
    [WriteHeader StatusBadRequest].
Proof. by rewrite Error_one_header, ErrorCode_Errorf, ErrorStatusCode_EINVALID. Qed.

Lemma Error_no_Write r err data : Write data ∉ Error ECONFLICT EINVALID ENOTFOUND ENOTIMPLEMENTED EUNAUTHORIZED EINTERNAL ErrorCode ErrorMessage r err.
Proof. intros Hin. by apply Error_no_success_output in Hin. Qed.

Lemma Error_no_Redirect r err url code : Redirect url code ∉ Error ECONFLICT EINVALID ENOTFOUND ENOTIMPLEMENTED EUNAUTHORIZED EINTERNAL ErrorCode ErrorMessage r err.
Proof. intros Hin. by apply Error_no_success_output in Hin. Qed.

(** X19: [handleDialSetMembershipValue] calls the service only when the
    body decodes and the id parses, and then once, with those two values;
    a request failing either check is answered with status 400 and leaves
    the service as it was.  The success body is written exactly when the
    service returned nil, and headers are never changed after sending. *)
Theorem handleDialSetMembershipValue_contract s r :
  snd (handleDialSetMembershipValue ECONFLICT EINVALID ENOTFOUND ENOTIMPLEMENTED EUNAUTHORIZED EINTERNAL ErrorCode ErrorMessage Atoi Decode s r) =
    match Decode (Body r), Atoi (vars_id r) with
    | Some value, Some id => snd (SetDialMembershipValue s (Context r) id value)
    | _, _ => s
    end /\
  (Decode (Body r) = None \/ Atoi (vars_id r) = None ->
   filter (fun e => writes_header e = true) (fst (handleDialSetMembershipValue ECONFLICT EINVALID ENOTFOUND ENOTIMPLEMENTED EUNAUTHORIZED EINTERNAL ErrorCode ErrorMessage Atoi Decode s r)) =
     [WriteHeader StatusBadRequest]) /\
  (Write "{}" ∈ fst (handleDialSetMembershipValue ECONFLICT EINVALID ENOTFOUND ENOTIMPLEMENTED EUNAUTHORIZED EINTERNAL ErrorCode ErrorMessage Atoi Decode s r) <->
   exists value id,
     Decode (Body r) = Some value /\ Atoi (vars_id r) = Some id /\
     fst (SetDialMembershipValue s (Context r) id value) = None) /\
  headers_first (fst (handleDialSetMembershipValue ECONFLICT EINVALID ENOTFOUND ENOTIMPLEMENTED EUNAUTHORIZED EINTERNAL ErrorCode ErrorMessage Atoi Decode s r)) = true.
Proof.
  unfold handleDialSetMembershipValue.
  destruct (Decode (Body r)) as [value |] eqn:Hbody.
  2:{ simpl. split; [done |]. split; [intros _; apply Error_EINVALID_header |].
      split; [| apply Error_headers_first].
      split; [intros Hin; by apply Error_no_Write in Hin |].
      by intros (? & ? & ? & _). }
  destruct (Atoi (vars_id r)) as [id |] eqn:Hid.
  2:{ simpl. split; [done |]. split; [intros _; apply Error_EINVALID_header |].
      split; [| apply Error_headers_first].
      split; [intros Hin; by apply Error_no_Write in Hin |].
      by intros (? & ? & _ & ? & _). }
  destruct (SetDialMembershipValue s (Context r) id value) as [[err |] s'] eqn:Hcall;
    simpl.
  - split; [done |]. split; [by intros [? | ?] |].
    split; [| apply Error_headers_first].
    split; [intros Hin; by apply Error_no_Write in Hin |].
    intros (v & i & [= <-] & [= <-] & Hnil). by rewrite Hcall in Hnil.
  - split; [done |]. split; [by intros [? | ?] |]. split; [| done].
    split; [| intros _; rewrite !elem_of_cons; auto].
    intros _. exists value, id. by rewrite Hcall.
Qed.

(** X20: [handleDialDelete] calls the service only when the id parses, and
    then once; an id that does not parse is answered with status 400 and
    leaves the service as it was.  The success output (the empty JSON
    object, or the flash cookie followed by the redirect to /dials with
    status 302) appears exactly when the service returned nil; the status
    line is sent at most once and headers are never changed after it. *)
Theorem handleDialDelete_contract s r :
  snd (handleDialDelete ECONFLICT EINVALID ENOTFOUND ENOTIMPLEMENTED EUNAUTHORIZED EINTERNAL ErrorCode ErrorMessage Atoi s r) =
    match Atoi (vars_id r) with
    | Some id => snd (DeleteDial s (Context r) id)
    | None => s
    end /\
  (Atoi (vars_id r) = None ->
   filter (fun e => writes_header e = true) (fst (handleDialDelete ECONFLICT EINVALID ENOTFOUND ENOTIMPLEMENTED EUNAUTHORIZED EINTERNAL ErrorCode ErrorMessage Atoi s r)) =
     [WriteHeader StatusBadRequest]) /\
  (Write "{}" ∈ fst (handleDialDelete ECONFLICT EINVALID ENOTFOUND ENOTIMPLEMENTED EUNAUTHORIZED EINTERNAL ErrorCode ErrorMessage Atoi s r) \/ Redirect "/dials" StatusFound ∈ fst (handleDialDelete ECONFLICT EINVALID ENOTFOUND ENOTIMPLEMENTED EUNAUTHORIZED EINTERNAL ErrorCode ErrorMessage Atoi s r) <->
   exists id,
     Atoi (vars_id r) = Some id /\ fst (DeleteDial s (Context r) id) = None) /\
  (Redirect "/dials" StatusFound ∈ fst (handleDialDelete ECONFLICT EINVALID ENOTFOUND ENOTIMPLEMENTED EUNAUTHORIZED EINTERNAL ErrorCode ErrorMessage Atoi s r) ->
   fst (handleDialDelete ECONFLICT EINVALID ENOTFOUND ENOTIMPLEMENTED EUNAUTHORIZED EINTERNAL ErrorCode ErrorMessage Atoi s r) =
     [SetCookie (mkCookie "flash" "Dial successfully deleted." "/" true);
      Redirect "/dials" StatusFound]) /\
  headers_first (fst (handleDialDelete ECONFLICT EINVALID ENOTFOUND ENOTIMPLEMENTED EUNAUTHORIZED EINTERNAL ErrorCode ErrorMessage Atoi s r)) = true /\
  (length (filter (fun e => writes_header e = true) (fst (handleDialDelete ECONFLICT EINVALID ENOTFOUND ENOTIMPLEMENTED EUNAUTHORIZED EINTERNAL ErrorCode ErrorMessage Atoi s r))) <= 1)%nat.
Proof.
  unfold handleDialDelete.
  destruct (Atoi (vars_id r)) as [id |] eqn:Hid.
  2:{ simpl. split; [done |]. split; [intros _; apply Error_EINVALID_header |].
      split; [| split; [| split; [apply Error_headers_first |]]].
      - split; [| by intros (? & ? & _)].
        intros [Hin | Hin];
          [by apply Error_no_Write in Hin | by apply Error_no_Redirect in Hin].
      - intros Hin. by apply Error_no_Redirect in Hin.
      - by rewrite Error_one_header. }
  destruct (DeleteDial s (Context r) id) as [[err |] s'] eqn:Hcall; simpl.
  - split; [done |]. split; [done |].
    split; [| split; [| split; [apply Error_headers_first |]]].
    + split.
      * intros [Hin | Hin];
          [by apply Error_no_Write in Hin | by apply Error_no_Redirect in Hin].
      * intros (i & [= <-] & Hnil). by rewrite Hcall in Hnil.
    + intros Hin. by apply Error_no_Redirect in Hin.
    + by rewrite Error_one_header.
  - split; [done |]. split; [done |].
    destruct (decide (Accept r = "application/json")); simpl.
    + split; [| split; [| split; [done | cbv; lia]]].
      * split; [| intros _; left; rewrite !elem_of_cons; auto].
        intros _. exists id. by rewrite Hcall.
      * rewrite !elem_of_cons, elem_of_nil. by intros [? | [? | ?]].
    + split; [| split; [done | split; [done | cbv; lia]]].
      split; [| intros _; right; rewrite !elem_of_cons; auto].
      intros _. exists id. by rewrite Hcall.
Qed.

End Responses.

(** ** What every run leaves behind *)

Section EveryRun.

Context {ES : Type} `{!EventService ES}.
Variable FormatError : error -> option error.

Implicit Types (fl : Faults) (tx : Tx ES) (id : Z).

Lemma publish_rows_all fl event rows : forall k es,
  (forall i, next_fails fl i = None) ->
  (forall i, scan_fails fl i = None) ->
  publish_rows fl k rows event es = (None, published event rows es).
Proof.
  induction rows as [| u rows IH]; intros k es Hnext Hscan; simpl.
  - by rewrite Hnext.
  - rewrite Hnext, Hscan. by apply IH.
Qed.

(** X21: [refreshDialValue] has no failure of its own: when no storage
    call fails it returns nil, whatever the tables hold, be the dial
    missing, unchanged or changed. *)
Theorem refreshDialValue_fails_only_on_storage fl tx id :
  select_value_fails fl = None ->
  select_avg_fails fl = None ->
  update_fails fl = None ->
  insert_fails fl = None ->
  select_members_fails fl = None ->
  (forall i, next_fails fl i = None) ->
  (forall i, scan_fails fl i = None) ->
  fst (refreshDialValue FormatError fl tx id) = None.
Proof.
  intros Hload Havg Hupd Hins Hmem Hnext Hscan.
  unfold refreshDialValue, insertDialValue, publishDialEvent, select_avg_value.
  rewrite Hload, Havg, Hupd, Hins, Hmem.
  unfold select_dial_value.
  destruct (filter _ (dials (store tx))) as [| d ds]; [done |].
  destruct (decide _); [done |]. simpl.
  by rewrite publish_rows_all.
Qed.

Lemma upsert_keeps id t value (rows : list dial_value) :
  key <$> rows `prefix_of` key <$> upsert_dial_value id t value rows /\
  Forall (fun r => conflicts id t r \/ r ∈ upsert_dial_value id t value rows) rows.
Proof.
  unfold upsert_dial_value.
  destruct (decide (Exists (conflicts id t) rows)) as [Hex | Hno].
  - split.
    + rewrite <- list_fmap_compose.
      erewrite (list_fmap_ext (key ∘ overwrite id t value) key);
        [done | intros i r _; simpl].
      unfold overwrite. by destruct (decide (conflicts id t r)).
    + apply Forall_forall. intros r Hin.
      destruct (decide (conflicts id t r)) as [Hr | Hr]; [by left | right].
      apply list_elem_of_fmap. exists r. by rewrite overwrite_miss.
  - split.
    + rewrite fmap_app. by apply prefix_app_r.
    + apply Forall_forall. intros r Hin. right. apply elem_of_app. by left.
Qed.

(** X22: no run of [refreshDialValue] removes a history sample or changes
    the key of one: the keys it found are still there, in place, with at
    most one key added after them, and every sample that is not of this
    dial and this minute is kept as it was. *)
Theorem refreshDialValue_keeps_history fl tx id :
  key <$> dial_values (store tx) `prefix_of`
    key <$> dial_values (store (snd (refreshDialValue FormatError fl tx id))) /\
  (length (dial_values (store (snd (refreshDialValue FormatError fl tx id)))) <=
     S (length (dial_values (store tx))))%nat /\
  Forall (fun r => conflicts id (Truncate (now tx) (1 * Minute)) r \/
                   r ∈ dial_values (store (snd (refreshDialValue FormatError fl tx id))))
         (dial_values (store tx)).
Proof.
  destruct (refreshDialValue_store FormatError fl tx id) as [_ Hstore].
  simpl in Hstore.
  destruct Hstore as [-> | [-> | ->]].
  - split; [done |]. split; [lia |]. apply Forall_forall. by right.
  - split; [done |]. split; [simpl; lia |]. apply Forall_forall. by right.
  - simpl.
    destruct (upsert_keeps id (Truncate (now tx) (1 * Minute))
                (computed_value (store tx) id) (dial_values (store tx)))
      as [Hprefix Hkept].
    split; [exact Hprefix |]. split; [| exact Hkept].
    unfold upsert_dial_value. destruct (decide _).
    + rewrite length_fmap. lia.
    + rewrite length_app. simpl. lia.
Qed.

(** X23: whatever fails, the only calls [refreshDialValue] makes on the
    event service are [PublishEvent] calls for the members of the dial up
    to some position of the member list, in order, each with the
    value-changed event for this dial and the value just computed. *)
Theorem refreshDialValue_notifies_members_only fl tx id :
  exists j,
    (j <= length (select_members (store tx) id))%nat /\
    db_EventService (snd (refreshDialValue FormatError fl tx id)) =
      published (value_changed id (computed_value (store tx) id))
                (take j (select_members (store tx) id)) (db_EventService tx).
Proof.
  assert (Hnone : exists j,
            (j <= length (select_members (store tx) id))%nat /\
            db_EventService tx =
              published (value_changed id (computed_value (store tx) id))
                        (take j (select_members (store tx) id)) (db_EventService tx)).
  { exists 0%nat. split; [lia | done]. }
  unfold refreshDialValue, insertDialValue, publishDialEvent, select_avg_value.
  destruct (select_dial_value _ _ _) as [[| | |] | old]; simpl; auto.
  destruct (select_avg_fails fl) as [text |]; simpl; auto.
  destruct (decide _); simpl; auto.
  destruct (update_fails fl) as [text |]; simpl; auto.
  assert (Hpub : exists j,
            (j <= length (select_members (store tx) id))%nat /\
            snd (publish_rows fl 0 (select_members (store tx) id)
                   (value_changed id (computed_value (store tx) id))
                   (db_EventService tx)) =
              published (value_changed id (computed_value (store tx) id))
                        (take j (select_members (store tx) id)) (db_EventService tx)).
  { destruct (publish_rows_prefix fl
                (value_changed id (computed_value (store tx) id))
                (select_members (store tx) id) 0%nat (db_EventService tx))
      as (j & Hj & Hsnd & _).
    by exists j. }
  unfold value_changed in *.
  destruct (insert_fails fl) as [text |]; simpl.
  { destruct (FormatError _); simpl; auto.
    destruct (select_members_fails fl); simpl.
    - destruct (FormatError _); simpl; auto.
    - unfold select_members in *. simpl.
      destruct (publish_rows _ _ _ _ _) as [[err |] es]; simpl in *; auto. }
  destruct (select_members_fails fl); simpl.
  - destruct (FormatError _); simpl; auto.
  - unfold select_members in *. simpl.
    destruct (publish_rows _ _ _ _ _) as [[err |] es]; simpl in *; auto.
Qed.

End EveryRun.

(** ** More closed instances *)

Section MoreInstances.

Import example.

Lemma limit_offset_sql_sublist limit offset rows :
  limit_offset_sql limit offset rows `sublist_of` rows.
Proof.
  unfold limit_offset_sql.
  destruct (decide (0 < offset)), (decide (0 < limit));
    try reflexivity; try apply sublist_take; try apply sublist_drop.
  etransitivity; [apply sublist_take | apply sublist_drop].
Qed.

(** Listing the dials of user 7 with a cursor that fails at the second
    row. *)
Lemma findDials_failure_witness :
  findDials keep_error limit_offset_sql (rows_scan_fails_at 1 "boom") tx2 7
    (DialFilter.mk None None 0 0) = (None, 0, Some (DriverError "boom")).
Proof.
  assert (Herr : snd (findDials keep_error limit_offset_sql
                        (rows_scan_fails_at 1 "boom") tx2 7
                        (DialFilter.mk None None 0 0)) <> None)
    by (vm_compute; discriminate).
  rewrite (findDials_failure keep_error limit_offset_sql _ tx2 7 _ Herr).
  vm_compute. reflexivity.
Defined.

(** The first of the two dials of user 7: dial 1 comes before dial 3, and
    the count is 2. *)
Lemma findDials_sound_witness :
  findDials keep_error limit_offset_sql no_query_faults tx2 7
    (DialFilter.mk None None 0 1) =
    (Some [mkDial 1 7 "a" 10 "code1" 0 0], 2, None) /\
  snd (fst (findDials keep_error limit_offset_sql no_query_faults tx2 7
              (DialFilter.mk None None 0 1))) = 2 /\
  StronglySorted by_id [mkDial 1 7 "a" 10 "code1" 0 0].
Proof.
  assert (Hds : fst (fst (findDials keep_error limit_offset_sql no_query_faults tx2 7
                            (DialFilter.mk None None 0 1))) =
                Some [mkDial 1 7 "a" 10 "code1" 0 0]) by (vm_compute; reflexivity).
  destruct (findDials_sound keep_error limit_offset_sql limit_offset_sql_sublist
              no_query_faults tx2 7 (DialFilter.mk None None 0 1) _ Hds)
    as (_ & Hsorted & _ & Hn & _).
  split; [vm_compute; reflexivity |]. split; [| exact Hsorted].
  rewrite Hn. vm_compute. reflexivity.
Defined.

Lemma findDials_complete_witness :
  exists ds,
    findDials keep_error limit_offset_sql no_query_faults tx2 7
      (DialFilter.mk None None 0 0) = (Some ds, Z.of_nat (length ds), None) /\
    ds ≡ₚ [mkDial 3 7 "c" 30 "code3" 0 0; mkDial 1 7 "a" 10 "code1" 0 0].
Proof.
  exact (findDials_complete keep_error limit_offset_sql tx2 7
           (DialFilter.mk None None 0 0) eq_refl).
Defined.

(** User 7 listing without an invite code gets dials 1 and 3, of which
    they are a member.  User 8 is no member of dial 3 and still finds it
    by its invite code, as user 7 does; when the cursor fails both get
    the same failure. *)
Lemma findDials_visibility_witness :
  Forall (member_of (store tx2) 7)
         [mkDial 1 7 "a" 10 "code1" 0 0; mkDial 3 7 "c" 30 "code3" 0 0] /\
  findDials keep_error limit_offset_sql (rows_scan_fails_at 0 "boom") tx2 7
    (DialFilter.mk None (Some "code3") 0 0) =
  findDials keep_error limit_offset_sql (rows_scan_fails_at 0 "boom") tx2 8
    (DialFilter.mk None (Some "code3") 0 0).
Proof.
  destruct (findDials_visibility keep_error limit_offset_sql limit_offset_sql_sublist
              no_query_faults (rows_scan_fails_at 0 "boom") tx2 7 8
              (DialFilter.mk None None 0 0)
              (DialFilter.mk None (Some "code3") 0 0)) as [Hmember Hsame].
  split.
  - apply (Hmember eq_refl). vm_compute. reflexivity.
  - apply Hsame. by eexists.
Defined.

Lemma findDialByID_result_witness :
  (exists d,
     findDialByID keep_error limit_offset_sql "not_found" no_query_faults tx2 7 3 =
       (Some d, None) /\
     ID d = 3 /\ member_of (store tx2) 7 d /\ d ∈ dials (store tx2)) \/
  (exists err,
     findDialByID keep_error limit_offset_sql "not_found" no_query_faults tx2 7 3 =
       (None, Some err)).
Proof.
  exact (findDialByID_result keep_error limit_offset_sql "not_found"
           limit_offset_sql_sublist no_query_faults tx2 7 3).
Defined.

(** Dial 2 exists, but user 7 is no member of it. *)
Lemma findDialByID_not_found_witness :
  findDialByID keep_error limit_offset_sql "not_found" no_query_faults tx2 7 2 =
    (None, Some (Error "not_found" "Dial not found.")) /\
  checkDialExists keep_error "not_found" None tx2 2 = None.
Proof.
  assert (Hall : forall rows, limit_offset_sql 0 0 rows = rows) by reflexivity.
  assert (Hnone : fst (findDialByID keep_error limit_offset_sql "not_found"
                         no_query_faults tx2 7 2) = None) by (vm_compute; reflexivity).
  split; [| vm_compute; reflexivity].
  exact (proj2 (findDialByID_not_found keep_error limit_offset_sql "not_found"
                  tx2 7 2 Hall) Hnone).
Defined.

Lemma findDialByID_checkDialExists_witness :
  findDialByID keep_error limit_offset_sql "not_found" no_query_faults tx2 7 3 =
    (Some (mkDial 3 7 "c" 30 "code3" 0 0), None) /\
  checkDialExists keep_error "not_found" None tx2 3 = None.
Proof.
  assert (Hfind : findDialByID keep_error limit_offset_sql "not_found"
                    no_query_faults tx2 7 3 =
                  (Some (mkDial 3 7 "c" 30 "code3" 0 0), None))
    by (vm_compute; reflexivity).
  split; [exact Hfind |].
  exact (findDialByID_checkDialExists keep_error limit_offset_sql "not_found"
           limit_offset_sql_sublist no_query_faults tx2 7 3 _ Hfind).
Defined.

(** [rows.Scan] fails at the second member: the first one has been
    notified, the second has not. *)
Lemma publishDialEvent_prefix_witness :
  exists j,
    (j <= length (select_members (store tx0) 1))%nat /\
    snd (publishDialEvent keep_error (scan_fails_at 1 "boom") tx0 1 (value_changed 1 2)) =
      set_EventService tx0
        (published (value_changed 1 2) (take j (select_members (store tx0) 1))
                   (db_EventService tx0)) /\
    (fst (publishDialEvent keep_error (scan_fails_at 1 "boom") tx0 1
            (value_changed 1 2)) = None ->
     j = length (select_members (store tx0) 1)) /\
    (fst (publishDialEvent keep_error (scan_fails_at 1 "boom") tx0 1
            (value_changed 1 2)) <> None ->
     is_Some (next_fails (scan_fails_at 1 "boom") j) \/
     is_Some (scan_fails (scan_fails_at 1 "boom") j)).
Proof.
  exact (publishDialEvent_prefix keep_error (scan_fails_at 1 "boom") tx0 1
           (value_changed 1 2) eq_refl).
Defined.

Lemma refreshDialValue_history_failure_witness :
  refreshDialValue keep_error (insert_fails_with "disk full") tx0 1 =
    (Some (Errorf "insert historical value" (DriverError "disk full")),
     mkTx (mkStore [mkDial 1 7 "wtf" 2 "invite" 0 t0] (dial_memberships s0) []) t0 []).
Proof.
  assert (Hne : 0 <> computed_value (store tx0) 1) by (vm_compute; discriminate).
  rewrite (refreshDialValue_history_failure keep_error (insert_fails_with "disk full")
             tx0 1 0 "disk full" (DriverError "disk full")
             eq_refl eq_refl eq_refl eq_refl eq_refl eq_refl Hne).
  vm_compute. reflexivity.
Defined.

Lemma refreshDialValue_unique_samples_witness :
  unique_samples (dial_values (store tx1)) /\
  unique_samples
    (dial_values (store (snd (refreshDialValue keep_error no_faults tx1 1)))).
Proof.
  assert (Huniq : unique_samples (dial_values (store tx1))).
  { unfold unique_samples. apply (bool_decide_unpack _). vm_compute. exact I. }
  split; [exact Huniq |].
  exact (refreshDialValue_unique_samples keep_error no_faults tx1 1 Huniq).
Defined.

Lemma insertDialValue_last_write_wins_witness :
  snd (insertDialValue keep_error no_faults
         (snd (insertDialValue keep_error no_faults tx0 1 5 (61 * Second)))
         1 7 (119 * Second)) =
  snd (insertDialValue keep_error no_faults tx0 1 7 (119 * Second)).
Proof.
  exact (insertDialValue_last_write_wins keep_error no_faults no_faults tx0 1 5 7
           (61 * Second) (119 * Second) eq_refl eq_refl eq_refl).
Defined.

(** Members saying 1 and 2: the aggregate stays within [1, 2]. *)
Lemma computed_value_bounds_witness : 1 <= computed_value s0 1 <= 2.
Proof.
  apply (computed_value_bounds s0 1 1 2 2).
  - apply Exists_cons_hd. reflexivity.
  - unfold s0. simpl. repeat (apply Forall_cons; split; [simpl; lia |]).
    apply Forall_nil_2.
  - lia.
  - lia.
  - vm_compute. discriminate.
Defined.

(** The members of dial 1 listed the other way round. *)
Lemma computed_value_Permutation_witness :
  computed_value s0 1 =
  computed_value (mkStore [] [mkMembership 1 8 2; mkMembership 1 7 1] []) 1.
Proof.
  apply (computed_value_Permutation _ _ 1 2).
  - apply perm_swap.
  - repeat constructor; simpl; lia.
  - vm_compute. discriminate.
Defined.

Lemma status_round_trip_witness :
  let order := map_to_list (http.codes "conflict" "invalid" "not_found" "not_implemented" "unauthorized" "internal") in
  http.ErrorStatusCode "conflict" "invalid" "not_found" "not_implemented" "unauthorized" "internal" (http.FromErrorStatusCode "internal" order 404) = 404 /\
  http.ErrorStatusCode "conflict" "invalid" "not_found" "not_implemented" "unauthorized" "internal" (http.FromErrorStatusCode "internal" order 418) = 500.
Proof.
  cbv zeta.
  assert (Hdistinct : NoDup ["conflict"; "invalid"; "not_found"; "not_implemented";
                             "unauthorized"; "internal"]).
  { apply (bool_decide_unpack _). vm_compute. exact I. }
  split.
  - exact (proj1 (status_round_trip "conflict" "invalid" "not_found" "not_implemented" "unauthorized" "internal" Hdistinct
                    (map_to_list (http.codes "conflict" "invalid" "not_found" "not_implemented" "unauthorized" "internal")) 404 (reflexivity _))).
  - exact (proj1 (status_round_trip "conflict" "invalid" "not_found" "not_implemented" "unauthorized" "internal" Hdistinct
                    (map_to_list (http.codes "conflict" "invalid" "not_found" "not_implemented" "unauthorized" "internal")) 418 (reflexivity _))).
Defined.

Lemma example_codes_distinct :
  NoDup ["conflict"; "invalid"; "not_found"; "not_implemented"; "unauthorized";
         "internal"].
Proof. apply (bool_decide_unpack _). vm_compute. exact I. Qed.

(** An error with a code of its own making: status 500, nothing reported
    and nothing logged. *)
Lemma Error_reports_internal_only_witness :
  http.WriteHeader 500 ∈
    http.Error "conflict" "invalid" "not_found" "not_implemented" "unauthorized" "internal" code_of message_of (request "application/json" "7" "")
      (Some (Error "teapot" "short and stout")) /\
  Forall (fun e => match e with
                   | http.ReportError _ | http.LogPrintf _ _ _ => False
                   | _ => True
                   end)
    (http.Error "conflict" "invalid" "not_found" "not_implemented" "unauthorized" "internal" code_of message_of (request "application/json" "7" "")
       (Some (Error "teapot" "short and stout"))).
Proof.
  assert (Hout : "teapot" ∉ ["conflict"; "invalid"; "not_found"; "not_implemented";
                             "unauthorized"; "internal"]).
  { apply (bool_decide_unpack _). vm_compute. exact I. }
  exact (proj2 (proj2 (Error_reports_internal_only "conflict" "invalid" "not_found" "not_implemented" "unauthorized" "internal" code_of message_of
                         (request "application/json" "7" "")
                         (Some (Error "teapot" "short and stout")))) Hout).
Defined.

(** A body that decodes and an id that does not parse: status 400, and
    the service has seen no call. *)
Lemma handleDialSetMembershipValue_contract_witness :
  snd (http.handleDialSetMembershipValue "conflict" "invalid" "not_found" "not_implemented" "unauthorized" "internal" code_of message_of parse_7 parse_7
         [] (request "application/json" "seven" "7")) = [] /\
  filter (fun e => http.writes_header e = true)
    (fst (http.handleDialSetMembershipValue "conflict" "invalid" "not_found" "not_implemented" "unauthorized" "internal" code_of message_of parse_7 parse_7
            [] (request "application/json" "seven" "7"))) =
    [http.WriteHeader 400].
Proof.
  destruct (handleDialSetMembershipValue_contract "conflict" "invalid" "not_found" "not_implemented" "unauthorized" "internal" code_of message_of parse_7
              parse_7 example_codes_distinct (fun _ _ => eq_refl)
              [] (request "application/json" "seven" "7")) as (Hstate & Hbad & _).
  split; [exact Hstate | exact (Hbad (or_intror eq_refl))].
Defined.

(** An id that does not parse: status 400, and the service has seen no
    call. *)
Lemma handleDialDelete_contract_witness :
  snd (http.handleDialDelete "conflict" "invalid" "not_found" "not_implemented" "unauthorized" "internal" code_of message_of parse_7
         [] (request "text/html" "seven" "")) = [] /\
  filter (fun e => http.writes_header e = true)
    (fst (http.handleDialDelete "conflict" "invalid" "not_found" "not_implemented" "unauthorized" "internal" code_of message_of parse_7
            [] (request "text/html" "seven" ""))) =
    [http.WriteHeader 400].
Proof.
  destruct (handleDialDelete_contract "conflict" "invalid" "not_found" "not_implemented" "unauthorized" "internal" code_of message_of parse_7
              example_codes_distinct (fun _ _ => eq_refl)
              [] (request "text/html" "seven" "")) as (Hstate & Hbad & _).
  split; [exact Hstate | exact (Hbad eq_refl)].
Defined.

(** The same handler on an id that parses: one call reaches the service,
    then the flash cookie and the redirect. *)
Example handleDialDelete_html :
  http.handleDialDelete "conflict" "invalid" "not_found" "not_implemented" "unauthorized" "internal" code_of message_of parse_7
    [] (request "text/html" "7" "") =
    ([http.SetCookie (http.mkCookie "flash" "Dial successfully deleted." "/" true);
      http.Redirect "/dials" 302],
     [(7, None)]).
Proof. vm_compute. reflexivity. Qed.

Lemma refreshDialValue_fails_only_on_storage_witness :
  fst (refreshDialValue keep_error no_faults tx1 1) = None.
Proof.
  exact (refreshDialValue_fails_only_on_storage keep_error no_faults tx1 1
           eq_refl eq_refl eq_refl eq_refl eq_refl
           (fun _ => eq_refl) (fun _ => eq_refl)).
Defined.

End MoreInstances.
